(** * three-colorpicker: the customization state and the mesh reconciler

    A shallow embedding of [src/app/page.tsx] (the page with colours,
    textures and UV mappings), of the crop helper [getCroppedImg] with its
    caller [applyCrop], and of the material loop of the colour-only page
    ([src/app/index.tsx]).

    JavaScript objects that the code shares and mutates (scene nodes,
    materials, textures, outline objects) live in a store and are named by
    their index; React state is a record that every event maps to the next
    record; numbers that the code multiplies are binary64 floats. *)

From Stdlib Require Import ZArith PrimFloat.
From stdpp Require Import base option list strings gmap.

Set Warnings "-inexact-float,-register-all,-clear-no-such-hyp".

(** ** JavaScript helpers *)

(** [Array.prototype.includes] on an array of strings. *)
Definition includes (l : list string) (x : string) : bool :=
  existsb (String.eqb x) l.

(** The value of an optional string when [if (v)] takes the branch:
    [undefined], [null] and the empty string are falsy. *)
Definition truthy_str (v : option string) : option string :=
  match v with
  | Some s => if String.eqb s "" then None else Some s
  | None => None
  end.

(** [xs.forEach(f)] for a body that may throw: the first failure aborts. *)
Fixpoint forEach {A S : Type} (f : A → S → option S) (xs : list A) (s : S)
  : option S :=
  match xs with
  | [] => Some s
  | x :: xs' => match f x s with
                | Some s' => forEach f xs' s'
                | None => None
                end
  end.

(** ** Types and constants of the page *)

Definition PART_NAMES : list string :=
  ["logo"; "ankleflap"; "laceguardarea"; "midsole";
   "outsole"; "sidepanel"; "upper"; "laces"].

Record Mapping := {
  offsetX : float;
  offsetY : float;
  scale : float
}.

Definition initialColors : gmap string string :=
  foldl (λ acc p, <[p := "#ffffff"]> acc) ∅ PART_NAMES.

Definition initialTextures : gmap string (option string) :=
  foldl (λ acc p, <[p := None]> acc) ∅ PART_NAMES.

Definition initialMappings : gmap string Mapping :=
  foldl (λ acc p,
           <[p := {| offsetX := 0%float; offsetY := 0%float;
                     scale := 1%float |}]> acc) ∅ PART_NAMES.

(** The five [useState] cells of [Page]. *)
Record PageState := {
  colors : gmap string string;
  textures : gmap string (option string);
  mappings : gmap string Mapping;
  selectedPart : option string;
  interactive : bool
}.

Definition initialState : PageState :=
  {| colors := initialColors; textures := initialTextures;
     mappings := initialMappings; selectedPart := None;
     interactive := true |}.

Definition setColors (f : gmap string string → gmap string string)
  (st : PageState) : PageState :=
  {| colors := f (colors st); textures := textures st;
     mappings := mappings st; selectedPart := selectedPart st;
     interactive := interactive st |}.

Definition setTextures
  (f : gmap string (option string) → gmap string (option string))
  (st : PageState) : PageState :=
  {| colors := colors st; textures := f (textures st);
     mappings := mappings st; selectedPart := selectedPart st;
     interactive := interactive st |}.

Definition setMappings (f : gmap string Mapping → gmap string Mapping)
  (st : PageState) : PageState :=
  {| colors := colors st; textures := textures st;
     mappings := f (mappings st); selectedPart := selectedPart st;
     interactive := interactive st |}.

Definition setSelectedPart (p : option string) (st : PageState) : PageState :=
  {| colors := colors st; textures := textures st;
     mappings := mappings st; selectedPart := p;
     interactive := interactive st |}.

Definition setInteractive (f : bool → bool) (st : PageState) : PageState :=
  {| colors := colors st; textures := textures st;
     mappings := mappings st; selectedPart := selectedPart st;
     interactive := f (interactive st) |}.

(** ** The host channel *)

(** [e.data as { part; color?; mapping?; image? }]. *)
Record Message := {
  part : string;
  color : option string;
  mapping : option Mapping;
  image : option string
}.

(** The [message] listener of [Page]. *)
Definition handler (msg : Message) (st : PageState) : PageState :=
  if negb (includes PART_NAMES (part msg)) then st
  else
    let st1 :=
      match truthy_str (color msg) with
      | Some c =>
          setTextures <[part msg := None]> (setColors <[part msg := c]> st)
      | None => st
      end in
    let st2 :=
      match mapping msg with
      | Some mp => setMappings <[part msg := mp]> st1
      | None => st1
      end in
    match truthy_str (image msg) with
    | Some url => setTextures <[part msg := Some url]> st2
    | None => st2
    end.

(** ** Selection and the interaction toggle *)

Definition toggleInteractive (st : PageState) : PageState :=
  let st1 := if interactive st then setSelectedPart None st else st in
  setInteractive negb st1.

(** [onPointerDown] of the group: the callback is [undefined] unless
    [interactive]. *)
Definition onPointerDown (hit : string) (st : PageState) : PageState :=
  if interactive st
  then setSelectedPart (if includes PART_NAMES hit then Some hit else None) st
  else st.

(** [onPointerMissed] of the canvas: [interactive && setSelectedPart(null)]. *)
Definition onPointerMissed (st : PageState) : PageState :=
  if interactive st then setSelectedPart None st else st.

Inductive Event :=
  | Toggle
  | PointerDown (hit : string)
  | PointerMissed
  | HostMessage (msg : Message).

Definition step (st : PageState) (e : Event) : PageState :=
  match e with
  | Toggle => toggleInteractive st
  | PointerDown hit => onPointerDown hit st
  | PointerMissed => onPointerMissed st
  | HostMessage msg => handler msg st
  end.

Definition run (es : list Event) : PageState := foldl step initialState es.

(** Every part has a mapping record: what [mappings[name]] relies on when
    it is destructured. *)
Definition state_ok (st : PageState) : bool :=
  forallb (λ p, bool_decide (is_Some (mappings st !! p))) PART_NAMES.

(** ** The scene store *)

(** Objects owned by the rendering engine are named by their index in the
    store: two references are the same JavaScript object exactly when the
    indices are equal. *)
Abbreviation ObjId := nat (only parsing).
Abbreviation MatId := nat (only parsing).
Abbreviation TexId := nat (only parsing).
Abbreviation LineId := nat (only parsing).

Inductive Wrapping :=
  | RepeatWrapping
  | ClampToEdgeWrapping
  | MirroredRepeatWrapping.

(** A [THREE.Texture]. [tex_image] is [None] while the load started by
    [TextureLoader.load] is in flight. *)
Record Texture := {
  tex_src : string;
  tex_image : option string;
  tex_flipY : bool;
  tex_wrapS : Wrapping;
  tex_wrapT : Wrapping;
  tex_anisotropy : float;
  tex_repeat : float * float;
  tex_offset : float * float
}.

(** A [THREE.Color], described by how it got its value: as the loader
    left it, by a style string in hex notation, or by [Color.set] with a
    style string that three.js resolves through its own tables (a colour
    name, [rgb(...)], [hsl(...)]), applied to the colour before. The last
    form is kept as written: whether such a string names a colour is not
    decided here. *)
Inductive Color :=
  | RGB (r g b : float)
  | Hex (style : string)
  | SetStyle (style : string) (before : Color).

(** A [MeshStandardMaterial]; a map field holds a texture or [null]. *)
Record Material := {
  mat_color : Color;
  mat_map : option TexId;
  mat_normalMap : option TexId;
  mat_roughnessMap : option TexId;
  mat_metalnessMap : option TexId;
  mat_bumpMap : option TexId;
  mat_aoMap : option TexId;
  mat_roughness : float;
  mat_metalness : float;
  mat_needsUpdate : bool
}.

(** [mesh.material] is one material or an array of materials. *)
Inductive MaterialSlot :=
  | OneMaterial (m : MatId)
  | ManyMaterials (ms : list MatId).

(** A scene node. [cloned] and [outline] are [userData.cloned] and
    [userData.outline]; [overlays] are the children that [mesh.add] attached
    (the nodes of the loaded asset are the [Tree] below). *)
Record Object3D := {
  obj_name : string;
  isMesh : bool;
  geometry : nat;
  material : MaterialSlot;
  cloned : bool;
  outline : option LineId;
  overlays : list LineId
}.

(** The [THREE.LineSegments] built for a highlight, with the disposal state
    of its geometry and of its material. *)
Record LineSegments := {
  edges_of : nat;
  thresholdAngle : Z;
  line_color : Z;
  renderOrder : Z;
  depthTest : bool;
  geometry_disposed : bool;
  material_disposed : bool
}.

Record World := {
  objs : list Object3D;
  mats : list Material;
  texs : list Texture;
  lines : list LineSegments
}.

(** The loaded asset of [useGLTF]: the name index and the scene graph. *)
Inductive Tree := Node3D (id : ObjId) (kids : list Tree).

Record Scene := {
  nodes : gmap string ObjId;
  scene : Tree
}.

Definition has_name (os : list Object3D) (id : ObjId) (name : string) : bool :=
  match os !! id with
  | Some o => String.eqb (obj_name o) name
  | None => false
  end.

(** [Object3D.getObjectByName]: the node itself, else the first hit among
    the children, depth first. *)
Fixpoint getObjectByName (os : list Object3D) (name : string) (t : Tree)
  : option ObjId :=
  match t with
  | Node3D id kids =>
      if has_name os id name then Some id
      else
        (fix first (ks : list Tree) : option ObjId :=
           match ks with
           | [] => None
           | k :: ks' =>
               match getObjectByName os name k with
               | Some r => Some r
               | None => first ks'
               end
           end) kids
  end.

(** [nodes[name] || scene.getObjectByName(name)]. *)
Definition lookup_node (sc : Scene) (os : list Object3D) (name : string)
  : option ObjId :=
  match nodes sc !! name with
  | Some o => Some o
  | None => getObjectByName os name (scene sc)
  end.

(** [Array.isArray(mesh.material) ? mesh.material : [mesh.material]]. *)
Definition as_array (s : MaterialSlot) : list MatId :=
  match s with
  | OneMaterial m => [m]
  | ManyMaterials ms => ms
  end.

(** [Array.isArray(mesh.material) ? clones : clones[0]]. *)
Definition like_slot (s : MaterialSlot) (clones : list MatId) : MaterialSlot :=
  match s with
  | OneMaterial m => OneMaterial (hd m clones)
  | ManyMaterials _ => ManyMaterials clones
  end.

Definition set_objs (os : list Object3D) (w : World) : World :=
  {| objs := os; mats := mats w; texs := texs w; lines := lines w |}.
Definition set_mats (ms : list Material) (w : World) : World :=
  {| objs := objs w; mats := ms; texs := texs w; lines := lines w |}.
Definition set_texs (ts : list Texture) (w : World) : World :=
  {| objs := objs w; mats := mats w; texs := ts; lines := lines w |}.
Definition set_lines (ls : list LineSegments) (w : World) : World :=
  {| objs := objs w; mats := mats w; texs := texs w; lines := ls |}.

(** ** Material cloning *)

Definition mark_cloned (slot : MaterialSlot) (o : Object3D) : Object3D :=
  {| obj_name := obj_name o; isMesh := isMesh o; geometry := geometry o;
     material := slot; cloned := true;
     outline := outline o; overlays := overlays o |}.

(** The [if (!mesh.userData.cloned)] block. [m.clone()] allocates a copy of
    the material; a reference to no material has no behaviour ([None]). *)
Definition clone_materials (o : ObjId) (w : World) : option World :=
  match objs w !! o with
  | None => Some w
  | Some mesh =>
      if cloned mesh then Some w
      else
        match mapM (λ m, mats w !! m) (as_array (material mesh)) with
        | None => None
        | Some originals =>
            let clones := seq (length (mats w)) (length originals) in
            Some (set_objs
                    (<[o := mark_cloned (like_slot (material mesh) clones) mesh]>
                       (objs w))
                    (set_mats (mats w ++ originals) w))
        end
  end.

(** ** Colour, texture and mapping of one material *)

Definition set_map (t : option TexId) (m : Material) : Material :=
  {| mat_color := mat_color m; mat_map := t;
     mat_normalMap := mat_normalMap m; mat_roughnessMap := mat_roughnessMap m;
     mat_metalnessMap := mat_metalnessMap m; mat_bumpMap := mat_bumpMap m;
     mat_aoMap := mat_aoMap m; mat_roughness := mat_roughness m;
     mat_metalness := mat_metalness m; mat_needsUpdate := mat_needsUpdate m |}.

(** [[A-Fa-f\d]]. *)
Definition is_hex_digit (a : Ascii.ascii) : bool :=
  let n := Ascii.nat_of_ascii a in
  (48 <=? n) && (n <=? 57) || (65 <=? n) && (n <=? 70)
  || (97 <=? n) && (n <=? 102).

(** The character [#]. *)
Definition hash : Ascii.ascii := Ascii.ascii_of_nat 35.

(** A style that [Color.set] reads as hex notation: [#] followed by three
    or by six hex digits. *)
Definition hex_color (style : string) : bool :=
  match style with
  | String a digits =>
      Ascii.eqb a hash
      && forallb is_hex_digit (String.list_ascii_of_string digits)
      && ((String.length digits =? 3) || (String.length digits =? 6))
  | EmptyString => false
  end.

(** [color.set(style)] for a string: hex notation sets the colour; the
    empty string and any other string that starts with [#] match no
    notation and no colour name, and leave the colour as it is (three.js
    only warns); every other string goes to the tables of three.js. *)
Definition setStyle (style : string) (before : Color) : Color :=
  if hex_color style then Hex style
  else
    match style with
    | EmptyString => before
    | String a _ => if Ascii.eqb a hash then before
                    else SetStyle style before
    end.

(** [mat.color.set(c)]. *)
Definition set_color (c : string) (m : Material) : Material :=
  {| mat_color := setStyle c (mat_color m); mat_map := mat_map m;
     mat_normalMap := mat_normalMap m; mat_roughnessMap := mat_roughnessMap m;
     mat_metalnessMap := mat_metalnessMap m; mat_bumpMap := mat_bumpMap m;
     mat_aoMap := mat_aoMap m; mat_roughness := mat_roughness m;
     mat_metalness := mat_metalness m; mat_needsUpdate := mat_needsUpdate m |}.

(** [mat.roughness = 1; mat.metalness = 0; mat.needsUpdate = true]. *)
Definition force_matte (m : Material) : Material :=
  {| mat_color := mat_color m; mat_map := mat_map m;
     mat_normalMap := mat_normalMap m; mat_roughnessMap := mat_roughnessMap m;
     mat_metalnessMap := mat_metalnessMap m; mat_bumpMap := mat_bumpMap m;
     mat_aoMap := mat_aoMap m; mat_roughness := 1%float;
     mat_metalness := 0%float; mat_needsUpdate := true |}.

(** [loader.load(url)] followed by the four assignments to [tex]: the
    texture object exists at once, its image arrives later. *)
Definition load (url : string) (maxAniso : float) : Texture :=
  {| tex_src := url; tex_image := None; tex_flipY := false;
     tex_wrapS := RepeatWrapping; tex_wrapT := RepeatWrapping;
     tex_anisotropy := maxAniso;
     tex_repeat := (1%float, 1%float); tex_offset := (0%float, 0%float) |}.

(** [mat.map.repeat.set(tile, tile); mat.map.offset.set(offsetX, offsetY)]
    with [tile = 2 * scale]. *)
Definition apply_mapping (mp : Mapping) (t : Texture) : Texture :=
  let tile := (2 * scale mp)%float in
  {| tex_src := tex_src t; tex_image := tex_image t; tex_flipY := tex_flipY t;
     tex_wrapS := tex_wrapS t; tex_wrapT := tex_wrapT t;
     tex_anisotropy := tex_anisotropy t;
     tex_repeat := (tile, tile); tex_offset := (offsetX mp, offsetY mp) |}.

(** [mat.color.set(colors[name])]: [Color.set] ignores [undefined]. *)
Definition set_color_opt (c : option string) (m : Material) : Material :=
  match c with
  | Some c => set_color c m
  | None => m
  end.

(** The body of [materials.forEach]. Destructuring a missing
    [mappings[name]] throws: [None] says that the body threw, not what the
    assignments before the throw left in the store. *)
Definition reconcile_material (st : PageState) (maxAniso : float)
  (name : string) (m : MatId) (w : World) : option World :=
  match mats w !! m with
  | None => None
  | Some mat =>
      let mat := set_map None mat in
      let '(mat, ts) :=
        match truthy_str (mjoin (textures st !! name)) with
        | Some url =>
            (set_color "#ffffff" (set_map (Some (length (texs w))) mat),
             texs w ++ [load url maxAniso])
        | None => (set_color_opt (colors st !! name) mat, texs w)
        end in
      let ts' :=
        match mat_map mat with
        | Some t =>
            match mappings st !! name with
            | Some mp => Some (alter (apply_mapping mp) t ts)
            | None => None
            end
        | None => Some ts
        end in
      match ts' with
      | Some ts' => Some (set_texs ts' (set_mats (<[m := force_matte mat]> (mats w)) w))
      | None => None
      end
  end.

(** ** The highlight outline *)

Definition dispose (l : LineSegments) : LineSegments :=
  {| edges_of := edges_of l; thresholdAngle := thresholdAngle l;
     line_color := line_color l; renderOrder := renderOrder l;
     depthTest := depthTest l;
     geometry_disposed := true; material_disposed := true |}.

Definition set_outline (ol : option LineId) (kids : list LineId)
  (o : Object3D) : Object3D :=
  {| obj_name := obj_name o; isMesh := isMesh o; geometry := geometry o;
     material := material o; cloned := cloned o;
     outline := ol; overlays := kids |}.

(** The [if (mesh.userData.outline)] block: detach, dispose geometry and
    material, delete the reference. *)
Definition remove_outline (o : ObjId) (w : World) : World :=
  match objs w !! o with
  | None => w
  | Some mesh =>
      match outline mesh with
      | None => w
      | Some l =>
          set_objs
            (<[o := set_outline None
                      (filter (λ k, k ≠ l) (overlays mesh)) mesh]> (objs w))
            (set_lines (alter dispose l (lines w)) w)
      end
  end.

(** [new THREE.LineSegments(new THREE.EdgesGeometry(mesh.geometry, 15),
    new THREE.LineBasicMaterial({ color: 0xffff00 }))] with
    [renderOrder = 999] and [depthTest = false]. *)
Definition new_outline (mesh : Object3D) : LineSegments :=
  {| edges_of := geometry mesh; thresholdAngle := 15; line_color := 0xffff00;
     renderOrder := 999; depthTest := false;
     geometry_disposed := false; material_disposed := false |}.

(** The test of the outline block: [interactive && name === selectedPart]. *)
Definition selected (st : PageState) (name : string) : bool :=
  interactive st && bool_decide (selectedPart st = Some name).

(** The [if (interactive && name === selectedPart)] block. *)
Definition add_outline (st : PageState) (name : string) (o : ObjId)
  (w : World) : World :=
  match objs w !! o with
  | None => w
  | Some mesh =>
      if selected st name
      then
        let l := length (lines w) in
        set_objs
          (<[o := set_outline (Some l) (overlays mesh ++ [l]) mesh]> (objs w))
          (set_lines (lines w ++ [new_outline mesh]) w)
      else w
  end.

(** ** The reconciliation effect of [Model] *)

(** The body of [PART_NAMES.forEach]. *)
Definition reconcile_part (st : PageState) (maxAniso : float) (sc : Scene)
  (name : string) (w : World) : option World :=
  match lookup_node sc (objs w) name with
  | None => Some w
  | Some o =>
      match objs w !! o with
      | None => Some w
      | Some obj =>
          if negb (isMesh obj) then Some w
          else
            w1 ← clone_materials o w;
            mesh ← objs w1 !! o;
            w2 ← forEach (reconcile_material st maxAniso name)
                   (as_array (material mesh)) w1;
            Some (add_outline st name o (remove_outline o w2))
      end
  end.

Definition reconcile (st : PageState) (maxAniso : float) (sc : Scene)
  (w : World) : option World :=
  forEach (reconcile_part st maxAniso sc) PART_NAMES w.

(** A session: one pass of the effect per state in the list. *)
Definition passes (sts : list PageState) (maxAniso : float) (sc : Scene)
  (w : World) : option World :=
  forEach (λ st, reconcile st maxAniso sc) sts w.




(** ** Well-formed stores and what a pass leaves on a mesh *)

(** The fields of a node that the effect only reads. *)
Definition static_of (o : Object3D) : string * bool * nat :=
  (obj_name o, isMesh o, geometry o).

(** Every material reference of a node points into the material store. *)
Definition mats_valid (w : World) : Prop :=
  ∀ o obj m, objs w !! o = Some obj →
    m ∈ as_array (material obj) → m < length (mats w).

(** A node marked as cloned shares none of its materials with another node. *)
Definition clones_owned (w : World) : Prop :=
  ∀ i j oi oj m, objs w !! i = Some oi → objs w !! j = Some oj → i ≠ j →
    cloned oi = true →
    m ∈ as_array (material oi) → m ∉ as_array (material oj).

(** The attached overlays of a node are exactly its recorded outline, which
    points into the store of outline objects. *)
Definition overlays_tracked (w : World) : Prop :=
  ∀ o obj, objs w !! o = Some obj →
    overlays obj = option_list (outline obj) ∧
    ∀ l, outline obj = Some l → l < length (lines w).

Record world_ok (w : World) : Prop := {
  ok_valid : mats_valid w;
  ok_owned : clones_owned w;
  ok_overlays : overlays_tracked w
}.

(** The same three conditions as a check that evaluates. *)
Definition node_okb (w : World) (obj : Object3D) : bool :=
  forallb (λ m, m <? length (mats w)) (as_array (material obj))
  && bool_decide (overlays obj = option_list (outline obj))
  && from_option (λ l, l <? length (lines w)) true (outline obj).

Definition pair_okb (a b : nat * Object3D) : bool :=
  (a.1 =? b.1) || negb (cloned a.2)
  || forallb (λ m, negb (bool_decide (m ∈ as_array (material b.2))))
       (as_array (material a.2)).

Definition world_okb (w : World) : bool :=
  forallb (node_okb w) (objs w)
  && forallb (λ a, forallb (pair_okb a) (imap pair (objs w)))
       (imap pair (objs w)).

(** No two part names resolve to the same node. *)
Definition alias_free (sc : Scene) (os : list Object3D) : bool :=
  forallb (λ p,
    forallb (λ q,
      match lookup_node sc os p, lookup_node sc os q with
      | Some a, Some b => negb (a =? b) || String.eqb p q
      | _, _ => true
      end) PART_NAMES) PART_NAMES.

(** What the material loop leaves on a material of part [name] and on the
    texture its [map] refers to. *)
Definition rendered (st : PageState) (name : string) (mat : Material)
  (tex : option Texture) : Prop :=
  mat_roughness mat = 1%float ∧ mat_metalness mat = 0%float ∧
  mat_needsUpdate mat = true ∧
  match truthy_str (mjoin (textures st !! name)) with
  | Some url =>
      mat_color mat = Hex "#ffffff" ∧
      ∃ t mp, tex = Some t ∧ mappings st !! name = Some mp ∧
        tex_src t = url ∧
        tex_repeat t = ((2 * scale mp)%float, (2 * scale mp)%float) ∧
        tex_offset t = (offsetX mp, offsetY mp) ∧
        tex_wrapS t = RepeatWrapping ∧ tex_wrapT t = RepeatWrapping ∧
        tex_flipY t = false
  | None =>
      tex = None ∧
      ∀ c, colors st !! name = Some c → hex_color c = true →
        mat_color mat = Hex c
  end.

(** Every material of node [o], with the texture of its [map], satisfies [P];
    the node carries the clone mark. *)
Definition shown (P : Material → option Texture → Prop) (w : World)
  (o : ObjId) : Prop :=
  ∃ mesh, objs w !! o = Some mesh ∧ cloned mesh = true ∧
    ∀ m, m ∈ as_array (material mesh) →
      ∃ mat, mats w !! m = Some mat ∧
        match mat_map mat with
        | Some t => ∃ tex, texs w !! t = Some tex ∧ P mat (Some tex)
        | None => P mat None
        end.

(** The five secondary shading maps of a material. *)
Definition secondary_maps (m : Material) : list (option TexId) :=
  [mat_normalMap m; mat_roughnessMap m; mat_metalnessMap m;
   mat_bumpMap m; mat_aoMap m].

(** What every pass keeps of an earlier store: the read-only fields of the
    nodes, the stores only grow, a disposed outline stays disposed, and a
    node that carries the clone mark keeps the mark and its material
    reference. *)
Definition extends (w w' : World) : Prop :=
  static_of <$> objs w' = static_of <$> objs w ∧
  length (mats w) ≤ length (mats w') ∧
  (∃ extra, texs w' = texs w ++ extra) ∧
  length (lines w) ≤ length (lines w') ∧
  (∀ l ln, lines w !! l = Some ln →
     ∃ ln', lines w' !! l = Some ln' ∧
       (geometry_disposed ln = true → geometry_disposed ln' = true) ∧
       (material_disposed ln = true → material_disposed ln' = true)) ∧
  (∀ o obj, objs w !! o = Some obj → cloned obj = true →
     ∃ obj', objs w' !! o = Some obj' ∧ cloned obj' = true ∧
       material obj' = material obj).

(** Node [o] shows the image [url] placed by [mp]: every material of the
    node has a white tint and a [map] whose texture was loaded from [url]
    and carries the repeat and the offset of [mp]. *)
Definition shows_image (w : World) (o : ObjId) (url : string) (mp : Mapping)
  : Prop :=
  ∃ mesh, objs w !! o = Some mesh ∧
    ∀ m, m ∈ as_array (material mesh) →
      ∃ mat t tex, mats w !! m = Some mat ∧ mat_map mat = Some t ∧
        texs w !! t = Some tex ∧ tex_src tex = url ∧
        mat_color mat = Hex "#ffffff" ∧
        tex_repeat tex = ((2 * scale mp)%float, (2 * scale mp)%float) ∧
        tex_offset tex = (offsetX mp, offsetY mp).

(** ** An example asset

    A group with three meshes; [midsole] and [logo] share one material at
    load time, [upper] has a material array, and the shared material has a
    baked normal map. *)
Definition example_material : Material :=
  {| mat_color := Hex "#808080"; mat_map := None; mat_normalMap := Some 0;
     mat_roughnessMap := None; mat_metalnessMap := None; mat_bumpMap := None;
     mat_aoMap := None; mat_roughness := 0.5%float;
     mat_metalness := 0.25%float; mat_needsUpdate := false |}.

Definition example_node (name : string) (mesh : bool) (g : nat)
  (slot : MaterialSlot) : Object3D :=
  {| obj_name := name; isMesh := mesh; geometry := g; material := slot;
     cloned := false; outline := None; overlays := [] |}.

Definition example_world : World :=
  {| objs := [example_node "Scene" false 0 (ManyMaterials []);
              example_node "midsole" true 1 (OneMaterial 0);
              example_node "logo" true 2 (OneMaterial 0);
              example_node "upper" true 3 (ManyMaterials [0; 1])];
     mats := [example_material; example_material];
     texs := [load "baked-normal.png" 1%float];
     lines := [] |}.

Definition example_scene : Scene :=
  {| nodes := <["midsole" := 1]> (<["logo" := 2]> ∅);
     scene := Node3D 0 [Node3D 1 []; Node3D 2 [Node3D 3 []]] |}.

Definition example_mapping : Mapping :=
  {| offsetX := 0.25%float; offsetY := (-0.1)%float; scale := 2%float |}.

(** Every mesh that a part name resolves to carries the clone mark. *)
Definition parts_cloned (sc : Scene) (w : World) : Prop :=
  ∀ name o obj, name ∈ PART_NAMES →
    lookup_node sc (objs w) name = Some o → objs w !! o = Some obj →
    isMesh obj = true → cloned obj = true.

(** The clone state of node [o] after it was touched, for a node that was
    [obj] in store [w]: marked, with the old material reference when [obj]
    was marked already, and with materials allocated after [w] otherwise. *)
Definition cloned_since (w : World) (o : ObjId) (obj : Object3D) (u : World)
  : Prop :=
  ∃ obj1, objs u !! o = Some obj1 ∧ cloned obj1 = true ∧
    (cloned obj = true → material obj1 = material obj) ∧
    (cloned obj = false →
     ∀ m, m ∈ as_array (material obj1) →
       length (mats w) ≤ m ∧ m < length (mats u)).

(** [Array.isArray(mesh.material)]. *)
Definition isArray (s : MaterialSlot) : bool :=
  match s with
  | OneMaterial _ => false
  | ManyMaterials _ => true
  end.

(** Node [o], which was the unmarked [obj] in store [w], carries in [u]
    clones of the materials of [obj]: it is marked, its material is an
    array exactly when it was one, with as many entries, and the entry at
    each position is a material allocated after [w] that has the secondary
    maps of the material [obj] had at that position (the material loop
    writes the other fields). *)
Definition copied_since (w : World) (o : ObjId) (obj : Object3D) (u : World)
  : Prop :=
  ∃ obj1, objs u !! o = Some obj1 ∧ cloned obj1 = true ∧
    isArray (material obj1) = isArray (material obj) ∧
    length (as_array (material obj1)) = length (as_array (material obj)) ∧
    ∀ i m, as_array (material obj) !! i = Some m →
      ∃ m' mat mat', as_array (material obj1) !! i = Some m' ∧
        length (mats w) ≤ m' ∧ mats w !! m = Some mat ∧
        mats u !! m' = Some mat' ∧
        secondary_maps mat' = secondary_maps mat.

(** The overlay state of node [o] after a pass touched it, for a node that
    was [obj] in store [w]: the outline [obj] had is detached from the node
    and its geometry and material are disposed, and an outline that the
    node carries now was created after [w], with interaction enabled, for
    the selected part, which resolves to this node. *)
Definition overlay_since (st : PageState) (sc : Scene) (w : World)
  (o : ObjId) (obj : Object3D) (u : World) : Prop :=
  ∃ obj', objs u !! o = Some obj' ∧
    (∀ l, outline obj = Some l →
       (l ∉ overlays obj') ∧
       ∃ ln, lines u !! l = Some ln ∧
         geometry_disposed ln = true ∧ material_disposed ln = true) ∧
    (∀ l, outline obj' = Some l →
       length (lines w) ≤ l ∧ interactive st = true ∧
       ∃ n, n ∈ PART_NAMES ∧ selectedPart st = Some n ∧
         lookup_node sc (objs w) n = Some o).

(** The example asset after a pass with [midsole] selected: its mesh
    carries an outline. *)
Definition example_selected_world : World :=
  default example_world
    (reconcile (onPointerDown "midsole" initialState) 16%float
       example_scene example_world).

(** ** The colour-only page

    The body of [mats.forEach] in [src/app/index.tsx]. There a material is
    any [THREE.Material]: a property the object does not have is [None]. *)
Module ColorOnly.

Record AnyMaterial := {
  any_color : option Color;
  any_map : option TexId;
  any_normalMap : option TexId;
  any_roughnessMap : option TexId;
  any_metalnessMap : option TexId;
  any_bumpMap : option TexId;
  any_aoMap : option TexId;
  any_roughness : option float;
  any_metalness : option float;
  any_needsUpdate : bool
}.

Definition hasColorProp (m : AnyMaterial) : bool :=
  bool_decide (is_Some (any_color m)).

(** [if (m[k]) m[k] = null] leaves a falsy field falsy: every listed field
    ends up without a texture. [if ('roughness' in m) m.roughness = 1]
    writes only a property that exists. *)
Definition paint (c : option string) (m : AnyMaterial) : AnyMaterial :=
  if negb (hasColorProp m) then m
  else
    {| any_color :=
         (λ old, from_option (λ c, setStyle c old) old c) <$> any_color m;
       any_map := None; any_normalMap := None; any_roughnessMap := None;
       any_metalnessMap := None; any_bumpMap := None; any_aoMap := None;
       any_roughness := (λ _, 1%float) <$> any_roughness m;
       any_metalness := (λ _, 0%float) <$> any_metalness m;
       any_needsUpdate := true |}.

End ColorOnly.

(** ** Cropping an image into a texture *)

(** [pixelCrop]: a rectangle of the source image, in pixels. *)
Record PixelCrop := {
  crop_x : Z;
  crop_y : Z;
  crop_width : Z;
  crop_height : Z
}.

Record HTMLImageElement := {
  img_src : string;
  naturalWidth : Z;
  naturalHeight : Z
}.

(** The arguments of the one [ctx.drawImage] call: source image, source
    rectangle, destination rectangle. *)
Record DrawImage := {
  draw_image : HTMLImageElement;
  draw_source : Z * Z * Z * Z;
  draw_dest : Z * Z * Z * Z
}.

Record Canvas := {
  canvas_width : Z;
  canvas_height : Z;
  canvas_drawn : option DrawImage
}.

(** A blob with the raster it encodes. *)
Record Blob := {
  blob_type : string;
  blob_width : Z;
  blob_height : Z;
  blob_content : option DrawImage
}.

(** What the browser decides: whether an image source decodes
    ([img.onload] or [img.onerror]), whether serializing a canvas yields
    data, and the URL it hands out for a blob. *)
Record Browser := {
  decode : string → option HTMLImageElement;
  serializes : Canvas → bool;
  createObjectURL : Blob → string
}.

Inductive Rejection :=
  | ImageError
  | CanvasIsEmpty.

(** [createImage(url)]: resolves with the image or rejects with the error
    event. *)
Definition createImage (b : Browser) (url : string)
  : Rejection + HTMLImageElement :=
  match decode b url with
  | Some img => inr img
  | None => inl ImageError
  end.

(** Assigning an integer to [canvas.width] or [canvas.height]. The
    attribute is an [unsigned long] that reflects a content attribute: the
    number is taken modulo 2^32, and a result above 2147483647 is replaced
    by the default of the attribute. *)
Definition set_dimension (default v : Z) : Z :=
  let n := (v mod 2 ^ 32)%Z in
  if (n <=? 2147483647)%Z then n else default.

(** The canvas after [canvas.width = pixelCrop.width],
    [canvas.height = pixelCrop.height] and the [drawImage] call. The
    defaults of a canvas are 300 by 150. *)
Definition cropped_canvas (img : HTMLImageElement) (pixelCrop : PixelCrop)
  : Canvas :=
  {| canvas_width := set_dimension 300 (crop_width pixelCrop);
     canvas_height := set_dimension 150 (crop_height pixelCrop);
     canvas_drawn :=
       Some {| draw_image := img;
               draw_source := (crop_x pixelCrop, crop_y pixelCrop,
                               crop_width pixelCrop, crop_height pixelCrop);
               draw_dest := (0, 0, crop_width pixelCrop,
                             crop_height pixelCrop)%Z |} |}.

(** [canvas.toBlob(callback, type)]: the value the callback receives. *)
Definition toBlob (b : Browser) (c : Canvas) (type : string) : option Blob :=
  if serializes b c
  then Some {| blob_type := type; blob_width := canvas_width c;
               blob_height := canvas_height c;
               blob_content := canvas_drawn c |}
  else None.

(** The promise of [getCroppedImg], settled. *)
Definition getCroppedImg (b : Browser) (imageSrc : string)
  (pixelCrop : PixelCrop) : Rejection + Blob :=
  match createImage b imageSrc with
  | inl err => inl err
  | inr img =>
      match toBlob b (cropped_canvas img pixelCrop) "image/png" with
      | Some blob => inr blob
      | None => inl CanvasIsEmpty
      end
  end.

(** The state of the page with the crop dialog: the customization state and
    the five cells of the dialog. *)
Record CropPage := {
  page : PageState;
  imageSrc : option string;
  showCrop : bool;
  crop : float * float;
  zoom : float;
  croppedAreaPixels : option PixelCrop
}.

Definition close_dialog (s : CropPage) : CropPage :=
  {| page := page s; imageSrc := None; showCrop := false;
     crop := (0%float, 0%float); zoom := 1%float;
     croppedAreaPixels := croppedAreaPixels s |}.

Definition set_page (p : PageState) (s : CropPage) : CropPage :=
  {| page := p; imageSrc := imageSrc s; showCrop := showCrop s;
     crop := crop s; zoom := zoom s;
     croppedAreaPixels := croppedAreaPixels s |}.

(** [applyCrop]: the [catch] branch only logs. *)
Definition applyCrop (b : Browser) (s : CropPage) : CropPage :=
  let s1 :=
    match truthy_str (imageSrc s), croppedAreaPixels s,
          truthy_str (selectedPart (page s)) with
    | Some src, Some area, Some sel =>
        match getCroppedImg b src area with
        | inr blob =>
            set_page
              (setTextures <[sel := Some (createObjectURL b blob)]> (page s)) s
        | inl _ => s
        end
    | _, _, _ => s
    end in
  close_dialog s1.

Definition cancelCrop (s : CropPage) : CropPage := close_dialog s.

(** A browser in which the 400 by 300 image [photo.png] decodes and every
    canvas with a positive area serializes. *)
Definition example_browser : Browser :=
  {| decode := λ url,
       if String.eqb url "photo.png"
       then Some {| img_src := url; naturalWidth := 400;
                    naturalHeight := 300 |}
       else None;
     serializes := λ c,
       (0 <? canvas_width c)%Z && (0 <? canvas_height c)%Z;
     createObjectURL := λ _, "blob:crop" |}.

(** ** The heads-up display *)

Definition HUMAN_LABELS : gmap string string :=
  list_to_map
    [("logo", "Logo"); ("ankleflap", "Ankle Flap");
     ("laceguardarea", "Lace Guard"); ("midsole", "Midsole");
     ("outsole", "Outsole"); ("sidepanel", "Side Panel");
     ("upper", "Upper"); ("laces", "Laces")].

(** [{interactive && selectedPart && <div className="hud">
    {HUMAN_LABELS[selectedPart]}</div>}]: [None] when no element is
    rendered, else the text of the element ([Some None] when the label is
    [undefined]). *)
Definition hud (st : PageState) : option (option string) :=
  if interactive st
  then match truthy_str (selectedPart st) with
       | Some p => Some (HUMAN_LABELS !! p)
       | None => None
       end
  else None.

(** The three one-field messages a message splits into. *)
Definition only_color (msg : Message) : Message :=
  {| part := part msg; color := color msg; mapping := None; image := None |}.
Definition only_mapping (msg : Message) : Message :=
  {| part := part msg; color := None; mapping := mapping msg;
     image := None |}.
Definition only_image (msg : Message) : Message :=
  {| part := part msg; color := None; mapping := None; image := image msg |}.

(** ** More of what a pass leaves *)

(** Node [o] shows the flat colour [c], a style in hex notation: every
    material of the node has no [map], the tint [c] and matte parameters. *)
Definition shows_color (w : World) (o : ObjId) (c : string) : Prop :=
  ∃ mesh, objs w !! o = Some mesh ∧
    ∀ m, m ∈ as_array (material mesh) →
      ∃ mat, mats w !! m = Some mat ∧ mat_map mat = None ∧
        mat_color mat = Hex c ∧ mat_roughness mat = 1%float ∧
        mat_metalness mat = 0%float.

(** No node carries the clone mark: an asset as the loader returns it. *)
Definition unmarked (w : World) : bool :=
  forallb (λ o, negb (cloned o)) (objs w).

(** No part name resolves to node [o]. *)
Definition unresolved (sc : Scene) (os : list Object3D) (o : ObjId) : bool :=
  forallb (λ name, negb (bool_decide (lookup_node sc os name = Some o)))
    PART_NAMES.

(** No part name resolves to a mesh. *)
Definition no_part_mesh (sc : Scene) (os : list Object3D) : bool :=
  forallb (λ name,
    match lookup_node sc os name with
    | Some o => match os !! o with
                | Some obj => negb (isMesh obj)
                | None => true
                end
    | None => true
    end) PART_NAMES.

(** No two nodes record the same outline object. *)
Definition outlines_distinctb (w : World) : bool :=
  forallb (λ a : nat * Object3D,
    forallb (λ b : nat * Object3D,
      (a.1 =? b.1)
      || match outline a.2, outline b.2 with
         | Some l, Some l' => negb (l =? l')
         | _, _ => true
         end) (imap pair (objs w))) (imap pair (objs w)).

Definition outlines_distinct (w : World) : Prop :=
  ∀ i j oi oj l, objs w !! i = Some oi → objs w !! j = Some oj →
    outline oi = Some l → outline oj = Some l → i = j.

(** ** The page with the crop dialog

    Its [Model] effect and its [message] listener (the second page of
    [src/app/page.tsx]). The effect differs from the one above in the body
    of [materials.forEach]: repeat and offset are written to the texture
    before it becomes the [map], inside the texture branch. The two
    bodies throw on the same inputs, at different statements; the store at
    a throw is not modelled ([None]). *)
Module WithCrop.

Definition reconcile_material (st : PageState) (maxAniso : float)
  (name : string) (m : MatId) (w : World) : option World :=
  match mats w !! m with
  | None => None
  | Some mat =>
      let mat := set_map None mat in
      match truthy_str (mjoin (textures st !! name)) with
      | Some url =>
          let tex := load url maxAniso in
          match mappings st !! name with
          | None => None
          | Some mp =>
              let tex := apply_mapping mp tex in
              let t := length (texs w) in
              let mat := set_color "#ffffff" (set_map (Some t) mat) in
              Some (set_texs (texs w ++ [tex])
                      (set_mats (<[m := force_matte mat]> (mats w)) w))
          end
      | None =>
          let mat := set_color_opt (colors st !! name) mat in
          Some (set_mats (<[m := force_matte mat]> (mats w)) w)
      end
  end.

Definition reconcile_part (st : PageState) (maxAniso : float) (sc : Scene)
  (name : string) (w : World) : option World :=
  match lookup_node sc (objs w) name with
  | None => Some w
  | Some o =>
      match objs w !! o with
      | None => Some w
      | Some obj =>
          if negb (isMesh obj) then Some w
          else
            w1 ← clone_materials o w;
            mesh ← objs w1 !! o;
            w2 ← forEach (reconcile_material st maxAniso name)
                   (as_array (material mesh)) w1;
            Some (add_outline st name o (remove_outline o w2))
      end
  end.

Definition reconcile (st : PageState) (maxAniso : float) (sc : Scene)
  (w : World) : option World :=
  forEach (reconcile_part st maxAniso sc) PART_NAMES w.

(** The listener reads [part], [color] and [image] only. *)
Definition handler (msg : Message) (st : PageState) : PageState :=
  if negb (includes PART_NAMES (part msg)) then st
  else
    let st1 :=
      match truthy_str (color msg) with
      | Some c =>
          setTextures <[part msg := None]> (setColors <[part msg := c]> st)
      | None => st
      end in
    match truthy_str (image msg) with
    | Some url => setTextures <[part msg := Some url]> st1
    | None => st1
    end.

End WithCrop.

(** * Properties *)

(** ** Helpers on lists and on [forEach] *)

Lemma includes_elem_of (l : list string) (x : string) :
  includes l x = true ↔ x ∈ l.
Proof.
  unfold includes. rewrite existsb_exists. split.
  - intros (y & Hin & Heq). apply String.eqb_eq in Heq as ->.
    by apply list_elem_of_In.
  - intros Hin. exists x. split; [by apply list_elem_of_In|].
    apply String.eqb_refl.
Qed.

Lemma truthy_str_Some (v : option string) (s : string) :
  truthy_str v = Some s ↔ v = Some s ∧ s ≠ "".
Proof.
  destruct v as [s'|]; simpl; [|naive_solver].
  destruct (String.eqb_spec s' ""); naive_solver.
Qed.

Section forEach_facts.
Context {A S : Type} (f : A → S → option S).

Lemma forEach_cons x xs s :
  forEach f (x :: xs) s = f x s ≫= forEach f xs.
Proof. simpl. by destruct (f x s). Qed.

Lemma forEach_app xs ys s :
  forEach f (xs ++ ys) s = forEach f xs s ≫= forEach f ys.
Proof.
  revert s. induction xs as [|x xs IH]; intros s; simpl; [done|].
  destruct (f x s); simpl; [apply IH|done].
Qed.

(** A property kept by every iteration is kept by the loop. *)
Lemma forEach_invariant (I : S → Prop) xs s s' :
  (∀ x t t', x ∈ xs → I t → f x t = Some t' → I t') →
  I s → forEach f xs s = Some s' → I s'.
Proof.
  revert s. induction xs as [|x xs IH]; intros s Hstep Hs Hrun; simpl in Hrun.
  - by simplify_eq.
  - destruct (f x s) as [t|] eqn:Hx; [|done].
    eapply IH; [|eapply Hstep; [left|done..]|done].
    intros y u u' Hy. apply Hstep. by right.
Qed.

(** The loop returns when every iteration returns under the invariant. *)
Lemma forEach_total (I : S → Prop) xs s :
  (∀ x t, x ∈ xs → I t → ∃ t', f x t = Some t' ∧ I t') →
  I s → ∃ s', forEach f xs s = Some s' ∧ I s'.
Proof.
  revert s. induction xs as [|x xs IH]; intros s Hstep Hs; simpl.
  - by exists s.
  - destruct (Hstep x s) as (t & -> & Ht); [left|done|].
    apply IH; [|done]. intros y u Hy. apply Hstep. by right.
Qed.

(** A property [R] that the iterations selected by [hit] establish and that
    the other iterations keep holds after the loop, once one element of the
    list is a hit. *)
Lemma forEach_establish (I R : S → Prop) (hit : A → Prop) xs s s' :
  (∀ x, hit x ∨ ¬ hit x) →
  (∀ x t t', x ∈ xs → I t → f x t = Some t' → I t') →
  (∀ x t t', x ∈ xs → hit x → I t → f x t = Some t' → R t') →
  (∀ x t t', x ∈ xs → ¬ hit x → I t → R t → f x t = Some t' → R t') →
  (∃ x, x ∈ xs ∧ hit x) →
  I s → forEach f xs s = Some s' → R s'.
Proof.
  intros Hdec Hinv Hest Hframe (x0 & Hin & Hhit) Hs Hrun.
  apply list_elem_of_split in Hin as (l1 & l2 & ->).
  rewrite forEach_app in Hrun. apply bind_Some in Hrun as (s1 & H1 & H2).
  assert (I s1) as Hs1.
  { eapply forEach_invariant; [|exact Hs|exact H1].
    intros y u u' Hy. apply Hinv. apply elem_of_app. by left. }
  rewrite forEach_cons in H2. apply bind_Some in H2 as (s2 & H2 & H3).
  assert (I s2 ∧ R s2) as Hs2.
  { split; [eapply Hinv|eapply Hest]; try done; set_solver. }
  apply (forEach_invariant (λ t, I t ∧ R t) l2 s2 s'); [|done|done].
  intros y u u' Hy [Hu HR] Hstep. split.
  - eapply Hinv; [|done..]. set_solver.
  - destruct (Hdec y) as [Hy'|Hy'].
    + eapply Hest; [|done..]. set_solver.
    + eapply Hframe; [|done..]. set_solver.
Qed.

End forEach_facts.

(** ** The customization state *)

Lemma handler_unknown msg st :
  includes PART_NAMES (part msg) = false → handler msg st = st.
Proof. intros H. unfold handler. by rewrite H. Qed.

Lemma handler_selection msg st :
  selectedPart (handler msg st) = selectedPart st ∧
  interactive (handler msg st) = interactive st.
Proof.
  unfold handler. destruct (negb _); [done|].
  destruct (truthy_str (color msg)), (mapping msg),
    (truthy_str (image msg)); done.
Qed.

Lemma handler_mappings_dom msg st p :
  is_Some (mappings st !! p) → is_Some (mappings (handler msg st) !! p).
Proof.
  intros Hp. unfold handler. destruct (negb _); [done|].
  destruct (truthy_str (color msg)), (mapping msg) as [mp|],
    (truthy_str (image msg)); simpl; try done;
    (destruct (decide (part msg = p)) as [->|];
     [rewrite lookup_insert_eq; eauto | by rewrite lookup_insert_ne]).
Qed.

Lemma state_ok_spec st :
  state_ok st = true ↔ ∀ p, p ∈ PART_NAMES → is_Some (mappings st !! p).
Proof.
  unfold state_ok. rewrite forallb_forall. split.
  - intros H p Hp. apply list_elem_of_In, H in Hp.
    by apply bool_decide_eq_true in Hp.
  - intros H p Hp. apply bool_decide_eq_true, H. by apply list_elem_of_In.
Qed.

Lemma step_state_ok st e : state_ok st = true → state_ok (step st e) = true.
Proof.
  rewrite !state_ok_spec. intros H p Hp. specialize (H p Hp).
  destruct e as [|hit| |msg]; simpl.
  - unfold toggleInteractive. by destruct (interactive st).
  - unfold onPointerDown. by destruct (interactive st).
  - unfold onPointerMissed. by destruct (interactive st).
  - by apply handler_mappings_dom.
Qed.

(** Every state the page can reach has a mapping record for every part. *)
Lemma run_state_ok es : state_ok (run es) = true.
Proof.
  unfold run. induction es as [|e es IH] using rev_ind.
  - by vm_compute.
  - rewrite foldl_app. simpl. by apply step_state_ok.
Qed.

Lemma step_selection_invariant st e :
  (interactive st = false → selectedPart st = None) →
  interactive (step st e) = false → selectedPart (step st e) = None.
Proof.
  intros Hinv. destruct e as [|hit| |msg]; simpl.
  - unfold toggleInteractive. destruct (interactive st) eqn:Hi; simpl.
    + done.
    + by rewrite Hi.
  - unfold onPointerDown. destruct (interactive st) eqn:Hi; simpl.
    + by rewrite Hi.
    + rewrite Hi. auto.
  - unfold onPointerMissed. destruct (interactive st) eqn:Hi; simpl.
    + by rewrite Hi.
    + rewrite Hi. auto.
  - destruct (handler_selection msg st) as [-> ->]. done.
Qed.

Lemma run_selection_invariant es :
  interactive (run es) = false → selectedPart (run es) = None.
Proof.
  unfold run. induction es as [|e es IH] using rev_ind.
  - done.
  - rewrite foldl_app. simpl. by apply step_selection_invariant.
Qed.

(** ** Name lookup *)

Section Tree_induction.
Variable P : Tree → Prop.
Hypothesis Hnode : ∀ id kids, Forall P kids → P (Node3D id kids).

Fixpoint Tree_forall_ind (t : Tree) : P t :=
  match t with
  | Node3D id kids =>
      Hnode id kids
        ((fix all (ks : list Tree) : Forall P ks :=
            match ks with
            | [] => @List.Forall_nil _ P
            | k :: ks' =>
                @List.Forall_cons _ P k ks' (Tree_forall_ind k) (all ks')
            end) kids)
  end.
End Tree_induction.

Lemma getObjectByName_ext os os' name t :
  (∀ id, has_name os id name = has_name os' id name) →
  getObjectByName os name t = getObjectByName os' name t.
Proof.
  intros Hext. induction t as [id kids IH] using Tree_forall_ind. simpl.
  rewrite Hext. destruct (has_name os' id name); [done|].
  induction IH as [|k ks Hk _ IHks]; [done|].
  rewrite Hk. destruct (getObjectByName os' name k); [done|apply IHks].
Qed.

(** The node found by the depth-first search carries the name. *)
Lemma getObjectByName_name os name t o :
  getObjectByName os name t = Some o → has_name os o name = true.
Proof.
  induction t as [id kids IH] using Tree_forall_ind. simpl.
  destruct (has_name os id name) eqn:Hid; [by intros [= <-]|].
  induction IH as [|k ks Hk _ IHks]; [done|].
  destruct (getObjectByName os name k) eqn:Hfound.
  - intros [= <-]. by apply Hk.
  - apply IHks.
Qed.

Lemma has_name_static os os' id name :
  static_of <$> os = static_of <$> os' →
  has_name os id name = has_name os' id name.
Proof.
  intros Hst. unfold has_name.
  assert (static_of <$> os !! id = static_of <$> os' !! id) as Hid
    by (by rewrite <- (list_lookup_fmap static_of os),
             <- (list_lookup_fmap static_of os'), Hst).
  destruct (os !! id) as [a|], (os' !! id) as [b|]; simpl in Hid;
    [|done..]. injection Hid as Hn _ _. by rewrite Hn.
Qed.

Lemma lookup_node_static sc os os' name :
  static_of <$> os = static_of <$> os' →
  lookup_node sc os name = lookup_node sc os' name.
Proof.
  intros Hst. unfold lookup_node. destruct (nodes sc !! name); [done|].
  apply getObjectByName_ext. intros id. by apply has_name_static.
Qed.

Lemma static_insert (os : list Object3D) (o : nat) obj obj' :
  os !! o = Some obj → static_of obj' = static_of obj →
  static_of <$> <[o := obj']> os = static_of <$> os.
Proof.
  intros Ho Hst. rewrite list_fmap_insert, Hst.
  apply list_insert_id. by rewrite list_lookup_fmap, Ho.
Qed.

(** ** One material *)

Lemma as_array_like_slot s ids :
  length ids = length (as_array s) → as_array (like_slot s ids) = ids.
Proof. destruct s, ids as [|? [|]]; simpl; intros; simplify_eq; done. Qed.

Lemma setStyle_hex c before :
  hex_color c = true → setStyle c before = Hex c.
Proof. intros Hc. unfold setStyle. by rewrite Hc. Qed.

(** What [materials.forEach]'s body does to the store. *)
Lemma reconcile_material_spec st aniso name m w w' :
  reconcile_material st aniso name m w = Some w' →
  objs w' = objs w ∧ lines w' = lines w ∧
  ∃ mat0 mat', mats w !! m = Some mat0 ∧ mats w' = <[m := mat']> (mats w) ∧
    secondary_maps mat' = secondary_maps mat0 ∧
    mat_roughness mat' = 1%float ∧ mat_metalness mat' = 0%float ∧
    mat_needsUpdate mat' = true ∧
    match truthy_str (mjoin (textures st !! name)) with
    | Some url =>
        ∃ mp, mappings st !! name = Some mp ∧
          texs w' = texs w ++ [apply_mapping mp (load url aniso)] ∧
          mat_map mat' = Some (length (texs w)) ∧
          mat_color mat' = Hex "#ffffff"
    | None =>
        texs w' = texs w ∧ mat_map mat' = None ∧
        mat_color mat'
        = from_option (λ c, setStyle c (mat_color mat0)) (mat_color mat0)
            (colors st !! name)
    end.
Proof.
  unfold reconcile_material. destruct (mats w !! m) as [mat0|] eqn:Hm; [|done].
  destruct (truthy_str (mjoin (textures st !! name))) as [url|]; simpl.
  - destruct (mappings st !! name) as [mp|]; [|done]. intros [= <-]. simpl.
    do 2 (split; [done|]). eexists mat0, _.
    split; [done|]. split; [done|]. simpl. do 4 (split; [done|]).
    exists mp. split; [done|]. split; [|done].
    rewrite <- (Nat.add_0_r (length (texs w))) at 1.
    by rewrite alter_app_r.
  - destruct (colors st !! name) as [c|]; simpl; intros [= <-]; simpl;
      (do 2 (split; [done|])); eexists mat0, _;
      (split; [done|]); (split; [done|]); simpl; done.
Qed.

Lemma reconcile_material_total st aniso name m w :
  state_ok st = true → name ∈ PART_NAMES → m < length (mats w) →
  is_Some (reconcile_material st aniso name m w).
Proof.
  intros Hst Hname Hm. unfold reconcile_material.
  apply lookup_lt_is_Some_2 in Hm as [mat ->].
  destruct (proj1 (state_ok_spec st) Hst name Hname) as [mp Hmp].
  destruct (truthy_str (mjoin (textures st !! name))); simpl.
  - rewrite Hmp. eauto.
  - destruct (colors st !! name); simpl; eauto.
Qed.

(** ** The material loop of one mesh *)

Lemma rendered_after_load st name url mp aniso mat :
  truthy_str (mjoin (textures st !! name)) = Some url →
  mappings st !! name = Some mp →
  mat_roughness mat = 1%float → mat_metalness mat = 0%float →
  mat_needsUpdate mat = true → mat_color mat = Hex "#ffffff" →
  rendered st name mat (Some (apply_mapping mp (load url aniso))).
Proof.
  intros Hurl Hmp ? ? ? ?. unfold rendered. rewrite Hurl.
  do 4 (split; [done|]). by exists (apply_mapping mp (load url aniso)), mp.
Qed.

Section material_loop.
Context (st : PageState) (aniso : float) (name : string).

Let body := reconcile_material st aniso name.

(** The loop touches the materials it is given and appends textures. *)
Lemma materials_loop_frame ids w w2 :
  forEach body ids w = Some w2 →
  objs w2 = objs w ∧ lines w2 = lines w ∧
  length (mats w2) = length (mats w) ∧
  (∃ extra, texs w2 = texs w ++ extra) ∧
  (∀ m, m ∉ ids → mats w2 !! m = mats w !! m) ∧
  (∀ m mat0, mats w !! m = Some mat0 →
     ∃ mat', mats w2 !! m = Some mat' ∧
       secondary_maps mat' = secondary_maps mat0).
Proof.
  apply (forEach_invariant body (λ w2,
    objs w2 = objs w ∧ lines w2 = lines w ∧
    length (mats w2) = length (mats w) ∧
    (∃ extra, texs w2 = texs w ++ extra) ∧
    (∀ m, m ∉ ids → mats w2 !! m = mats w !! m) ∧
    (∀ m mat0, mats w !! m = Some mat0 →
       ∃ mat', mats w2 !! m = Some mat' ∧
         secondary_maps mat' = secondary_maps mat0))).
  - intros m u u' Hm (Ho & Hl & Hlen & [extra Hex] & Hout & Hsec) Hstep.
    apply reconcile_material_spec in Hstep
      as (Ho' & Hl' & mat0 & mat' & Hm0 & Hmats & Hsec' & _ & _ & _ & Htex).
    split; [congruence|]. split; [congruence|].
    split; [by rewrite Hmats, length_insert|]. split; [|split].
    + destruct (truthy_str _).
      * destruct Htex as (mp & _ & -> & _). rewrite Hex, <- app_assoc. eauto.
      * destruct Htex as (-> & _). eauto.
    + intros m' Hm'. rewrite Hmats, list_lookup_insert_ne; [by apply Hout|].
      by intros ->.
    + intros m' matA HA. destruct (Hsec m' matA HA) as (matB & HB & HsecB).
      rewrite Hmats. destruct (decide (m = m')) as [->|Hne].
      * exists mat'. rewrite list_lookup_insert_eq by by eapply lookup_lt_Some.
        split; [done|]. rewrite HB in Hm0. injection Hm0 as <-.
        by rewrite Hsec'.
      * exists matB. by rewrite list_lookup_insert_ne.
  - do 3 (split; [done|]). split; [exists []; by rewrite app_nil_r|].
    split; [done|]. eauto.
Qed.

(** Every material of the list ends up rendered for the part. *)
Lemma materials_loop_rendered ids w w2 m :
  forEach body ids w = Some w2 → m ∈ ids →
  ∃ mat, mats w2 !! m = Some mat ∧
    match mat_map mat with
    | Some t => ∃ tex, texs w2 !! t = Some tex ∧ rendered st name mat (Some tex)
    | None => rendered st name mat None
    end.
Proof.
  intros Hrun Hm.
  apply (forEach_establish body (λ _, True) (λ w2,
    ∃ mat, mats w2 !! m = Some mat ∧
      match mat_map mat with
      | Some t =>
          ∃ tex, texs w2 !! t = Some tex ∧ rendered st name mat (Some tex)
      | None => rendered st name mat None
      end) (λ x, x = m) ids w w2); try done.
  - intros x. destruct (decide (x = m)); auto.
  - intros x u u' _ -> _ Hstep.
    apply reconcile_material_spec in Hstep
      as (_ & _ & mat0 & mat' & Hm0 & Hmats & _ & Hr & Hme & Hn & Htex).
    exists mat'. split.
    { rewrite Hmats. apply list_lookup_insert_eq. by eapply lookup_lt_Some. }
    destruct (truthy_str (mjoin (textures st !! name))) as [url|] eqn:Hurl.
    + destruct Htex as (mp & Hmp & Htexs & -> & Hcol).
      eexists. split; [rewrite Htexs; apply list_lookup_middle; done|].
      by apply rendered_after_load.
    + destruct Htex as (_ & -> & Hcol). unfold rendered. rewrite Hurl.
      do 4 (split; [done|]). intros c Hc Hhex. rewrite Hcol, Hc. simpl.
      by apply setStyle_hex.
  - intros x u u' _ Hne _ (mat & Hmat & Hshow) Hstep.
    apply reconcile_material_spec in Hstep
      as (_ & _ & mat0 & mat' & Hm0 & Hmats & _ & _ & _ & _ & Htex).
    exists mat. split; [by rewrite Hmats, list_lookup_insert_ne|].
    destruct (mat_map mat) as [t|]; [|done].
    destruct Hshow as (tex & Ht & Hr). exists tex. split; [|done].
    destruct (truthy_str _).
    + destruct Htex as (mp & _ & -> & _). by apply lookup_app_l_Some.
    + by destruct Htex as (-> & _).
  - eauto.
Qed.

Lemma materials_loop_total ids w :
  state_ok st = true → name ∈ PART_NAMES →
  (∀ m, m ∈ ids → m < length (mats w)) →
  is_Some (forEach body ids w).
Proof.
  intros Hst Hname Hids.
  destruct (forEach_total body (λ u, length (mats u) = length (mats w)) ids w)
    as (w2 & -> & _); [|done|eauto].
  intros m u Hm Hlen.
  destruct (reconcile_material_total st aniso name m u) as [u' Hu'];
    [done|done|rewrite Hlen; by apply Hids|].
  exists u'. split; [done|].
  apply reconcile_material_spec in Hu' as (_ & _ & ? & ? & _ & -> & _).
  by rewrite length_insert.
Qed.

End material_loop.

(** ** What a pass keeps *)

Lemma extends_refl w : extends w w.
Proof.
  unfold extends. split; [done|]. split; [done|].
  split; [exists []; by rewrite app_nil_r|]. split; [done|].
  split; eauto 10.
Qed.

Lemma extends_trans w1 w2 w3 : extends w1 w2 → extends w2 w3 → extends w1 w3.
Proof.
  intros (Hs & Hm & [e He] & Hl & Hd & Hc) (Hs' & Hm' & [e' He'] & Hl' & Hd' & Hc').
  unfold extends. split; [congruence|]. split; [lia|].
  split; [exists (e ++ e'); by rewrite He', He, app_assoc|]. split; [lia|].
  split.
  - intros l ln Hln. destruct (Hd l ln Hln) as (ln' & Hln' & Hg & Hmd).
    destruct (Hd' l ln' Hln') as (ln'' & Hln'' & Hg' & Hmd'). eauto 10.
  - intros o obj Ho Hcl. destruct (Hc o obj Ho Hcl) as (obj' & Ho' & Hcl' & Hmat).
    destruct (Hc' o obj' Ho' Hcl') as (obj'' & Ho'' & Hcl'' & Hmat').
    exists obj''. split; [done|]. split; [done|]. congruence.
Qed.

(** A step that rewrites one node, keeping its read-only fields and, when
    the node is marked, its material reference, and that lets the stores
    grow, is an extension. *)
Lemma extends_update w w' o obj obj' :
  objs w !! o = Some obj →
  objs w' = <[o := obj']> (objs w) →
  static_of obj' = static_of obj →
  (cloned obj = true → cloned obj' = true ∧ material obj' = material obj) →
  length (mats w) ≤ length (mats w') →
  (∃ extra, texs w' = texs w ++ extra) →
  length (lines w) ≤ length (lines w') →
  (∀ l ln, lines w !! l = Some ln →
     ∃ ln', lines w' !! l = Some ln' ∧
       (geometry_disposed ln = true → geometry_disposed ln' = true) ∧
       (material_disposed ln = true → material_disposed ln' = true)) →
  extends w w'.
Proof.
  intros Ho Hobjs Hst Hcl Hm Ht Hl Hd. unfold extends. rewrite Hobjs.
  split; [by eapply static_insert|]. do 4 (split; [done|]).
  intros j objj Hj Hclj. destruct (decide (o = j)) as [->|Hne].
  - exists obj'. rewrite list_lookup_insert_eq by by eapply lookup_lt_Some.
    simplify_eq. destruct (Hcl Hclj). auto.
  - exists objj. by rewrite list_lookup_insert_ne.
Qed.

Lemma clone_materials_cases o w w1 mesh :
  objs w !! o = Some mesh → clone_materials o w = Some w1 →
  (cloned mesh = true ∧ w1 = w) ∨
  (cloned mesh = false ∧
   ∃ originals,
     length originals = length (as_array (material mesh)) ∧
     Forall (λ m, m < length (mats w)) (as_array (material mesh)) ∧
     w1 = {| objs := <[o := mark_cloned
                        (like_slot (material mesh)
                           (seq (length (mats w)) (length originals))) mesh]>
                       (objs w);
             mats := mats w ++ originals; texs := texs w;
             lines := lines w |}).
Proof.
  intros Ho. unfold clone_materials. rewrite Ho.
  destruct (cloned mesh); [intros [= <-]; by left|].
  destruct (mapM _ _) as [originals|] eqn:Hmap; [|done].
  intros [= <-]. right. split; [done|]. exists originals.
  apply mapM_Some in Hmap. split; [by apply Forall2_length in Hmap|].
  split; [|done]. induction Hmap as [|m mat ms k Hm _ IH]; constructor.
  - by eapply lookup_lt_Some.
  - apply IH.
Qed.

(** ** The outline block *)

Lemma outline_step_spec st name o w mesh :
  objs w !! o = Some mesh →
  ∃ obj',
    objs (add_outline st name o (remove_outline o w)) = <[o := obj']> (objs w) ∧
    mats (add_outline st name o (remove_outline o w)) = mats w ∧
    texs (add_outline st name o (remove_outline o w)) = texs w ∧
    lines (add_outline st name o (remove_outline o w)) =
      from_option (alter dispose) id (outline mesh) (lines w)
      ++ (if selected st name then [new_outline mesh] else []) ∧
    static_of obj' = static_of mesh ∧ material obj' = material mesh ∧
    cloned obj' = cloned mesh ∧
    outline obj' =
      (if selected st name then Some (length (lines w)) else None) ∧
    overlays obj' =
      from_option (λ l, filter (λ k, k ≠ l)) id (outline mesh) (overlays mesh)
      ++ (if selected st name then [length (lines w)] else []).
Proof.
  intros Ho. pose proof (lookup_lt_Some _ _ _ Ho) as Hlt.
  unfold remove_outline. rewrite Ho.
  destruct (outline mesh) as [l|] eqn:Hol; unfold add_outline; simpl.
  - rewrite list_lookup_insert_eq by done.
    destruct (selected st name); simpl.
    + eexists. rewrite list_insert_insert_eq, length_alter. done.
    + eexists. rewrite !app_nil_r. done.
  - rewrite Ho. destruct (selected st name); simpl.
    + eexists. done.
    + exists mesh. rewrite list_insert_id by done.
      by rewrite !app_nil_r.
Qed.

(** ** One part *)

Lemma reconcile_part_inv st aniso sc name w w' :
  reconcile_part st aniso sc name w = Some w' →
  (w' = w ∧
   ∀ o obj, lookup_node sc (objs w) name = Some o →
     objs w !! o = Some obj → isMesh obj = false) ∨
  (∃ o obj w1 mesh w2,
     lookup_node sc (objs w) name = Some o ∧ objs w !! o = Some obj ∧
     isMesh obj = true ∧ clone_materials o w = Some w1 ∧
     objs w1 !! o = Some mesh ∧
     forEach (reconcile_material st aniso name)
       (as_array (material mesh)) w1 = Some w2 ∧
     w' = add_outline st name o (remove_outline o w2)).
Proof.
  unfold reconcile_part.
  destruct (lookup_node sc (objs w) name) as [o|]; [|intros [= <-]; by left].
  destruct (objs w !! o) as [obj|] eqn:Ho;
    [|intros [= <-]; left; split; [done|]; intros ? ? [= <-]; congruence].
  destruct (isMesh obj) eqn:Hmesh; simpl.
  - intros Hrun. apply bind_Some in Hrun as (w1 & Hclone & Hrun).
    apply bind_Some in Hrun as (mesh & Hmesh' & Hrun).
    apply bind_Some in Hrun as (w2 & Hloop & [= <-]).
    right. by exists o, obj, w1, mesh, w2.
  - intros [= <-]. left. split; [done|]. intros ? ? [= <-] ?. by simplify_eq.
Qed.

Lemma clone_materials_spec o w w1 obj :
  objs w !! o = Some obj → clone_materials o w = Some w1 →
  ∃ mesh originals,
    objs w1 = <[o := mesh]> (objs w) ∧ mats w1 = mats w ++ originals ∧
    texs w1 = texs w ∧ lines w1 = lines w ∧
    static_of mesh = static_of obj ∧ outline mesh = outline obj ∧
    overlays mesh = overlays obj ∧ cloned mesh = true ∧
    if cloned obj then mesh = obj ∧ originals = []
    else
      as_array (material mesh) = seq (length (mats w)) (length originals) ∧
      length originals = length (as_array (material obj)) ∧
      Forall (λ m, m < length (mats w)) (as_array (material obj)).
Proof.
  intros Ho Hclone.
  destruct (clone_materials_cases o w w1 obj Ho Hclone)
    as [[Hcl ->]|(Hcl & originals & Hlen & Hvalid & ->)]; rewrite Hcl.
  - exists obj, []. rewrite app_nil_r, list_insert_id by done. done.
  - eexists _, originals. simpl. do 8 (split; [done|]).
    split; [|done]. apply as_array_like_slot. by rewrite length_seq.
Qed.

Lemma new_outline_static a b :
  static_of a = static_of b → new_outline a = new_outline b.
Proof. unfold static_of, new_outline. intros [= _ _ ->]. done. Qed.

(** What the body of [PART_NAMES.forEach] does when the name resolves to a
    mesh [o]: the node is rewritten in place, its materials are the old ones
    (marked node) or fresh copies (unmarked node), each of them is rendered
    for the part, and the outline is replaced. *)
Lemma reconcile_part_mesh st aniso sc name w w' o obj :
  lookup_node sc (objs w) name = Some o → objs w !! o = Some obj →
  isMesh obj = true →
  reconcile_part st aniso sc name w = Some w' →
  ∃ obj' k,
    objs w' = <[o := obj']> (objs w) ∧
    static_of obj' = static_of obj ∧ cloned obj' = true ∧
    length (mats w') = length (mats w) + k ∧
    (if cloned obj then material obj' = material obj ∧ k = 0
     else as_array (material obj') = seq (length (mats w)) k ∧
          Forall (λ m, m < length (mats w)) (as_array (material obj))) ∧
    (∀ m, m < length (mats w) → m ∉ as_array (material obj') →
       mats w' !! m = mats w !! m) ∧
    (∀ m, m ∈ as_array (material obj') →
       ∃ mat, mats w' !! m = Some mat ∧
         match mat_map mat with
         | Some t =>
             ∃ tex, texs w' !! t = Some tex ∧ rendered st name mat (Some tex)
         | None => rendered st name mat None
         end) ∧
    (∃ extra, texs w' = texs w ++ extra) ∧
    lines w' =
      from_option (alter dispose) id (outline obj) (lines w)
      ++ (if selected st name then [new_outline obj] else []) ∧
    outline obj' =
      (if selected st name then Some (length (lines w)) else None) ∧
    overlays obj' =
      from_option (λ l, filter (λ k, k ≠ l)) id (outline obj) (overlays obj)
      ++ (if selected st name then [length (lines w)] else []).
Proof.
  intros Hlook Ho Hmesh Hrun.
  apply reconcile_part_inv in Hrun
    as [[_ Hskip]|(o' & obj0 & w1 & mesh & w2 & Hlook' & Ho' & _ & Hclone
                   & Hmesh1 & Hloop & ->)].
  { specialize (Hskip o obj Hlook Ho). congruence. }
  assert (o' = o) as -> by congruence. assert (obj0 = obj) as -> by congruence.
  pose proof (lookup_lt_Some _ _ _ Ho) as Hlt.
  destruct (clone_materials_spec o w w1 obj Ho Hclone)
    as (mesh' & originals & Hobjs1 & Hmats1 & Htexs1 & Hlines1 & Hst1 & Hol1
        & Hkids1 & Hcl1 & Hcase).
  assert (mesh' = mesh) as ->.
  { rewrite Hobjs1, list_lookup_insert_eq in Hmesh1 by done. congruence. }
  destruct (materials_loop_frame st aniso name _ _ _ Hloop)
    as (Hobjs2 & Hlines2 & Hlen2 & [extra Htexs2] & Hout2 & _).
  assert (objs w2 !! o = Some mesh) as Hmesh2 by congruence.
  destruct (outline_step_spec st name o w2 mesh Hmesh2)
    as (obj' & Hobjs3 & Hmats3 & Htexs3 & Hlines3 & Hst3 & Hmat3 & Hcl3
        & Hol3 & Hkids3).
  exists obj', (length originals).
  split. { by rewrite Hobjs3, Hobjs2, Hobjs1, list_insert_insert_eq. }
  split; [congruence|]. split; [congruence|].
  split. { by rewrite Hmats3, Hlen2, Hmats1, length_app. }
  split.
  { destruct (cloned obj).
    - destruct Hcase as [-> ->]. done.
    - destruct Hcase as (Hids & _ & Hvalid). by rewrite Hmat3. }
  split.
  { intros m Hm Hnot. rewrite Hmats3, Hout2, Hmats1 by congruence.
    by apply lookup_app_l. }
  split.
  { intros m Hm. rewrite Hmats3, Htexs3. rewrite Hmat3 in Hm.
    by apply (materials_loop_rendered st aniso name _ _ _ _ Hloop). }
  split. { exists extra. congruence. }
  split.
  { rewrite Hlines3, Hlines2, Hlines1, Hol1.
    by rewrite (new_outline_static mesh obj). }
  rewrite Hol3, Hkids3, Hlines2, Hlines1, Hol1, Hkids1. done.
Qed.

Lemma reconcile_part_skip st aniso sc name w w' :
  (∀ o obj, lookup_node sc (objs w) name = Some o →
     objs w !! o = Some obj → isMesh obj = false) →
  reconcile_part st aniso sc name w = Some w' → w' = w.
Proof.
  intros Hskip Hrun.
  apply reconcile_part_inv in Hrun
    as [[-> _]|(o & obj & _ & _ & _ & Hlook & Ho & Hmesh & _)]; [done|].
  specialize (Hskip o obj Hlook Ho). congruence.
Qed.

Lemma dispose_lookup (ls : list LineSegments) (ol : option nat) l ln :
  ls !! l = Some ln →
  ∃ ln', from_option (alter dispose) id ol ls !! l = Some ln' ∧
    (geometry_disposed ln = true → geometry_disposed ln' = true) ∧
    (material_disposed ln = true → material_disposed ln' = true) ∧
    (ol = Some l → geometry_disposed ln' = true ∧ material_disposed ln' = true).
Proof.
  intros Hl. destruct ol as [l0|]; simpl; [|by exists ln].
  destruct (decide (l0 = l)) as [->|Hne].
  - exists (dispose ln). by rewrite list_lookup_alter_eq, Hl.
  - exists ln. rewrite list_lookup_alter_ne by done.
    split; [done|]. split; [done|]. split; [done|]. congruence.
Qed.

Lemma dispose_length (ls : list LineSegments) (ol : option nat) :
  length (from_option (alter dispose) id ol ls) = length ls.
Proof. destruct ol; simpl; [apply length_alter|done]. Qed.

Lemma reconcile_part_extends st aniso sc name w w' :
  reconcile_part st aniso sc name w = Some w' → extends w w'.
Proof.
  intros Hrun.
  destruct (reconcile_part_inv _ _ _ _ _ _ Hrun)
    as [[-> _]|(o & obj & _ & _ & _ & Hlook & Ho & Hmesh & _)];
    [apply extends_refl|].
  destruct (reconcile_part_mesh _ _ _ _ _ _ _ _ Hlook Ho Hmesh Hrun)
    as (obj' & k & Hobjs & Hst & Hcl & Hlen & Hcase & _ & _ & Htexs & Hlines
        & _ & _).
  apply (extends_update w w' o obj obj'); try done.
  - intros Hc. rewrite Hc in Hcase. by destruct Hcase.
  - lia.
  - rewrite Hlines, length_app, dispose_length. lia.
  - intros l ln Hl.
    destruct (dispose_lookup (lines w) (outline obj) l ln Hl)
      as (ln' & Hl' & Hg & Hm & _).
    exists ln'. rewrite Hlines. split; [by apply lookup_app_l_Some|done].
Qed.

Lemma extends_lookup_node sc w w' name :
  extends w w' → lookup_node sc (objs w') name = lookup_node sc (objs w) name.
Proof. intros [Hst _]. by apply lookup_node_static. Qed.

Lemma extends_isMesh w w' o obj :
  extends w w' → objs w !! o = Some obj →
  ∃ obj', objs w' !! o = Some obj' ∧ static_of obj' = static_of obj.
Proof.
  intros [Hst _] Ho.
  assert ((static_of <$> objs w') !! o = Some (static_of obj)) as Hs
    by by rewrite Hst, list_lookup_fmap, Ho.
  rewrite list_lookup_fmap in Hs.
  destruct (objs w' !! o) as [obj'|]; [|done]. exists obj'.
  split; [done|]. simpl in Hs. congruence.
Qed.

Lemma reconcile_extends st aniso sc w w' :
  reconcile st aniso sc w = Some w' → extends w w'.
Proof.
  apply (forEach_invariant _ (extends w)); [|apply extends_refl].
  intros name u u' _ Hu Hstep. eapply extends_trans; [exact Hu|].
  by eapply reconcile_part_extends.
Qed.

Lemma passes_extends sts aniso sc w w' :
  passes sts aniso sc w = Some w' → extends w w'.
Proof.
  apply (forEach_invariant _ (extends w)); [|apply extends_refl].
  intros st u u' _ Hu Hstep. eapply extends_trans; [exact Hu|].
  by eapply reconcile_extends.
Qed.

(** ** Well-formed stores are kept *)

Lemma reconcile_part_world_ok st aniso sc name w w' :
  world_ok w → reconcile_part st aniso sc name w = Some w' → world_ok w'.
Proof.
  intros [HV HS HO] Hrun.
  destruct (reconcile_part_inv _ _ _ _ _ _ Hrun)
    as [[-> _]|(o & obj & _ & _ & _ & Hlook & Ho & Hmesh & _)]; [done|].
  destruct (reconcile_part_mesh _ _ _ _ _ _ _ _ Hlook Ho Hmesh Hrun)
    as (obj' & k & Hobjs & Hst & Hcl & Hlen & Hcase & _ & _ & _ & Hlines
        & Hol & Hkids).
  pose proof (lookup_lt_Some _ _ _ Ho) as Hlt.
  assert (∀ m, m ∈ as_array (material obj') →
            (cloned obj = true ∧ m ∈ as_array (material obj)) ∨
            (length (mats w) ≤ m < length (mats w'))) as Hids.
  { intros m Hm. destruct (cloned obj).
    - destruct Hcase as [Hmat _]. left. by rewrite <- Hmat.
    - destruct Hcase as [Hseq _]. right. rewrite Hseq in Hm.
      apply elem_of_seq in Hm. lia. }
  split.
  - intros j objj m Hj Hm. rewrite Hobjs in Hj.
    destruct (decide (o = j)) as [->|Hne].
    + rewrite list_lookup_insert_eq in Hj by done. simplify_eq.
      destruct (Hids m Hm) as [[_ Hm']|?]; [|lia].
      specialize (HV j obj m Ho Hm'). lia.
    + rewrite list_lookup_insert_ne in Hj by done.
      specialize (HV j objj m Hj Hm). lia.
  - intros i j oi oj m Hi Hj Hij Hcli Hmi Hmj. rewrite Hobjs in Hi, Hj.
    destruct (decide (o = i)) as [->|Hoi].
    + rewrite list_lookup_insert_eq in Hi by done.
      rewrite list_lookup_insert_ne in Hj by done. simplify_eq.
      destruct (Hids m Hmi) as [[Hc Hm']|?].
      * by apply (HS i j obj oj m).
      * specialize (HV j oj m Hj Hmj). lia.
    + rewrite list_lookup_insert_ne in Hi by done.
      destruct (decide (o = j)) as [->|Hoj].
      * rewrite list_lookup_insert_eq in Hj by done. simplify_eq.
        destruct (Hids m Hmj) as [[Hc Hm']|?].
        -- by apply (HS i j oi obj m).
        -- specialize (HV i oi m Hi Hmi). lia.
      * rewrite list_lookup_insert_ne in Hj by done.
        by apply (HS i j oi oj m).
  - intros j objj Hj. rewrite Hobjs in Hj.
    assert (length (lines w) ≤ length (lines w')) as Hll.
    { rewrite Hlines, length_app, dispose_length. lia. }
    destruct (decide (o = j)) as [->|Hne].
    + rewrite list_lookup_insert_eq in Hj by done. simplify_eq.
      rewrite Hol, Hkids, Hlines, length_app, dispose_length.
      destruct (HO j obj Ho) as [Hk _]. rewrite Hk.
      assert (from_option (λ l, filter (λ k, k ≠ l)) id (outline obj)
                (option_list (outline obj)) = []) as ->.
      { destruct (outline obj) as [l|]; simpl; [|done].
        rewrite filter_cons, decide_False by naive_solver. done. }
      destruct (selected st name); simpl.
      * split; [done|]. intros l [= <-]. lia.
      * done.
    + rewrite list_lookup_insert_ne in Hj by done.
      destruct (HO j objj Hj) as [Hk Hv]. split; [done|].
      intros l Hl. specialize (Hv l Hl). lia.
Qed.

Lemma reconcile_world_ok st aniso sc w w' :
  world_ok w → reconcile st aniso sc w = Some w' → world_ok w'.
Proof.
  intros Hw. apply (forEach_invariant _ world_ok); [|done].
  intros name u u' _. apply reconcile_part_world_ok.
Qed.

(** ** The effect returns *)

Lemma reconcile_part_total st aniso sc name w :
  state_ok st = true → name ∈ PART_NAMES → mats_valid w →
  is_Some (reconcile_part st aniso sc name w).
Proof.
  intros Hst Hname HV. unfold reconcile_part.
  destruct (lookup_node sc (objs w) name) as [o|]; [|eauto].
  destruct (objs w !! o) as [obj|] eqn:Ho; [|eauto].
  destruct (isMesh obj); simpl; [|eauto].
  pose proof (lookup_lt_Some _ _ _ Ho) as Hlt.
  assert (is_Some (clone_materials o w)) as [w1 Hclone].
  { unfold clone_materials. rewrite Ho. destruct (cloned obj); [eauto|].
    destruct (mapM (λ m, mats w !! m) (as_array (material obj)))
      as [originals|] eqn:Hmap; [eauto|].
    assert (is_Some (mapM (λ m, mats w !! m) (as_array (material obj))))
      as [? ?]; [|congruence].
    apply mapM_is_Some_2, Forall_forall. intros m Hm. simpl.
    apply lookup_lt_is_Some_2. by eapply HV. }
  rewrite Hclone. simpl.
  destruct (clone_materials_spec o w w1 obj Ho Hclone)
    as (mesh & originals & Hobjs1 & Hmats1 & _ & _ & _ & _ & _ & _ & Hcase).
  rewrite Hobjs1, list_lookup_insert_eq by done. simpl.
  destruct (materials_loop_total st aniso name (as_array (material mesh)) w1)
    as [w2 ->]; [done|done| |simpl; eauto].
  intros m Hm. rewrite Hmats1, length_app. destruct (cloned obj).
  - destruct Hcase as [-> _]. specialize (HV o obj m Ho Hm). lia.
  - destruct Hcase as [Hseq _]. rewrite Hseq in Hm.
    apply elem_of_seq in Hm. lia.
Qed.

Lemma reconcile_total st aniso sc w :
  state_ok st = true → world_ok w →
  ∃ w', reconcile st aniso sc w = Some w' ∧ world_ok w'.
Proof.
  intros Hst Hw. apply forEach_total; [|done].
  intros name u Hname Hu.
  destruct (reconcile_part_total st aniso sc name u) as [u' Hu'];
    [done|done|by destruct Hu|].
  exists u'. split; [done|]. by eapply reconcile_part_world_ok.
Qed.

Lemma passes_total sts aniso sc w :
  Forall (λ st, state_ok st = true) sts → world_ok w →
  ∃ w', passes sts aniso sc w = Some w' ∧ world_ok w'.
Proof.
  intros Hsts Hw. apply forEach_total; [|done].
  intros st u Hst Hu. apply reconcile_total; [|done].
  by eapply Forall_forall in Hsts.
Qed.

(** ** The rendering of one mesh survives the other parts *)

Lemma reconcile_part_shown st aniso sc name w w' o obj :
  lookup_node sc (objs w) name = Some o → objs w !! o = Some obj →
  isMesh obj = true →
  reconcile_part st aniso sc name w = Some w' →
  shown (rendered st name) w' o.
Proof.
  intros Hlook Ho Hmesh Hrun.
  destruct (reconcile_part_mesh _ _ _ _ _ _ _ _ Hlook Ho Hmesh Hrun)
    as (obj' & k & Hobjs & _ & Hcl & _ & _ & _ & Hshow & _).
  exists obj'. split; [|done].
  rewrite Hobjs. apply list_lookup_insert_eq. by eapply lookup_lt_Some.
Qed.

Lemma reconcile_part_frame P st aniso sc name w w' o :
  world_ok w → shown P w o →
  lookup_node sc (objs w) name ≠ Some o →
  reconcile_part st aniso sc name w = Some w' →
  shown P w' o.
Proof.
  intros [HV HS _] (mesh & Hmesh & Hcl & Hshow) Hother Hrun.
  destruct (reconcile_part_inv _ _ _ _ _ _ Hrun)
    as [[-> _]|(o' & obj & _ & _ & _ & Hlook & Ho & Hm & _)];
    [by exists mesh|].
  assert (o' ≠ o) as Hne by congruence.
  destruct (reconcile_part_mesh _ _ _ _ _ _ _ _ Hlook Ho Hm Hrun)
    as (obj' & k & Hobjs & _ & _ & _ & Hcase & Hkeep & _ & [extra Htexs] & _).
  exists mesh. split; [by rewrite Hobjs, list_lookup_insert_ne|].
  split; [done|]. intros m Hmin.
  destruct (Hshow m Hmin) as (mat & Hmat & Htex).
  exists mat. split.
  - rewrite Hkeep; [done|by eapply lookup_lt_Some|].
    destruct (cloned obj).
    + destruct Hcase as [-> _]. by apply (HS o o' mesh obj m).
    + destruct Hcase as [-> _]. rewrite elem_of_seq.
      apply lookup_lt_Some in Hmat. lia.
  - destruct (mat_map mat) as [t|]; [|done].
    destruct Htex as (tex & Ht & HP). exists tex. split; [|done].
    rewrite Htexs. by apply lookup_app_l_Some.
Qed.

(** ** The checks that evaluate are sound *)

Lemma world_okb_sound w : world_okb w = true → world_ok w.
Proof.
  unfold world_okb. rewrite andb_true_iff, !forallb_forall.
  intros [Hnode Hpair]. split.
  - intros o obj m Ho Hm.
    apply list_elem_of_lookup_2, list_elem_of_In, Hnode in Ho.
    unfold node_okb in Ho. rewrite !andb_true_iff, forallb_forall in Ho.
    destruct Ho as [[Hv _] _]. apply Nat.ltb_lt, Hv. by apply list_elem_of_In.
  - intros i j oi oj m Hi Hj Hij Hcl Hmi Hmj.
    apply (elem_of_lookup_imap_2 pair), list_elem_of_In in Hi, Hj.
    specialize (Hpair _ Hi). rewrite forallb_forall in Hpair.
    specialize (Hpair _ Hj). unfold pair_okb in Hpair. simpl in Hpair.
    rewrite !orb_true_iff, Nat.eqb_eq, negb_true_iff in Hpair.
    destruct Hpair as [[?|?]|Hdis]; [done|congruence|].
    rewrite forallb_forall in Hdis.
    apply list_elem_of_In, Hdis, negb_true_iff, bool_decide_eq_false in Hmi.
    done.
  - intros o obj Ho.
    apply list_elem_of_lookup_2, list_elem_of_In, Hnode in Ho.
    unfold node_okb in Ho. rewrite !andb_true_iff in Ho.
    destruct Ho as [[_ Hk] Hl]. apply bool_decide_eq_true in Hk.
    split; [done|]. intros l Hol. rewrite Hol in Hl. by apply Nat.ltb_lt.
Qed.

Lemma alias_free_spec sc os p q a :
  alias_free sc os = true → p ∈ PART_NAMES → q ∈ PART_NAMES →
  lookup_node sc os p = Some a → lookup_node sc os q = Some a → p = q.
Proof.
  unfold alias_free. rewrite forallb_forall. intros Hfree Hp Hq Hpa Hqa.
  apply list_elem_of_In, Hfree in Hp. rewrite forallb_forall in Hp.
  apply list_elem_of_In, Hp in Hq. rewrite Hpa, Hqa in Hq.
  rewrite Nat.eqb_refl in Hq. simpl in Hq. by apply String.eqb_eq.
Qed.

(** A name index keyed by the names of the nodes resolves no two part names
    to one node. *)
Lemma nodes_by_name_alias_free sc os :
  (∀ n o, nodes sc !! n = Some o → has_name os o n = true) →
  alias_free sc os = true.
Proof.
  intros Hnodes.
  assert (∀ n o, lookup_node sc os n = Some o → has_name os o n = true)
    as Hname.
  { intros n o. unfold lookup_node.
    destruct (nodes sc !! n) as [o'|] eqn:Hn.
    - intros [= <-]. by apply Hnodes.
    - apply getObjectByName_name. }
  unfold alias_free. rewrite forallb_forall. intros p _.
  rewrite forallb_forall. intros q _.
  destruct (lookup_node sc os p) as [a|] eqn:Hp; [|done].
  destruct (lookup_node sc os q) as [b|] eqn:Hq; [|done].
  destruct (Nat.eqb_spec a b) as [->|]; [simpl|done].
  apply Hname in Hp, Hq. unfold has_name in Hp, Hq.
  destruct (os !! b) as [obj|]; [|done].
  apply String.eqb_eq in Hp, Hq. apply String.eqb_eq. congruence.
Qed.

(** ** A whole pass *)

(** After a pass, the mesh of every part is rendered for that part. *)
Lemma reconcile_shown st aniso sc w w' name o obj :
  world_ok w → alias_free sc (objs w) = true → name ∈ PART_NAMES →
  lookup_node sc (objs w) name = Some o → objs w !! o = Some obj →
  isMesh obj = true →
  reconcile st aniso sc w = Some w' →
  shown (rendered st name) w' o.
Proof.
  intros Hw Hfree Hname Hlook Ho Hmesh Hrun.
  apply (forEach_establish (reconcile_part st aniso sc)
           (λ u, world_ok u ∧ extends w u)
           (λ u, shown (rendered st name) u o)
           (λ q, lookup_node sc (objs w) q = Some o) PART_NAMES w w');
    try done.
  - intros q. destruct (decide (lookup_node sc (objs w) q = Some o)); auto.
  - intros q u u' _ [Hu Hext] Hstep. split.
    + by eapply reconcile_part_world_ok.
    + eapply extends_trans; [done|]. by eapply reconcile_part_extends.
  - intros q u u' Hq Hhit [Hu Hext] Hstep.
    assert (q = name) as -> by by eapply alias_free_spec.
    destruct (extends_isMesh w u o obj Hext Ho) as (obj_u & Hou & Hst).
    eapply reconcile_part_shown; [|exact Hou| |exact Hstep].
    + by rewrite (extends_lookup_node sc w u).
    + unfold static_of in Hst. congruence.
  - intros q u u' _ Hmiss [Hu Hext] Hshown Hstep.
    eapply reconcile_part_frame; [exact Hu|exact Hshown| |exact Hstep].
    by rewrite (extends_lookup_node sc w u).
  - eauto.
  - split; [done|apply extends_refl].
Qed.

Lemma shown_shows_image st name w o url mp :
  shown (rendered st name) w o →
  truthy_str (mjoin (textures st !! name)) = Some url →
  mappings st !! name = Some mp →
  shows_image w o url mp.
Proof.
  intros (mesh & Hmesh & _ & Hshow) Hurl Hmp. exists mesh. split; [done|].
  intros m Hm. destruct (Hshow m Hm) as (mat & Hmat & Htex).
  unfold rendered in Htex. rewrite Hurl in Htex.
  destruct (mat_map mat) as [t|] eqn:Hmap.
  - destruct Htex as (tex & Ht & _ & _ & _ & Hcol & t' & mp' & [= <-] & Hmp'
                      & Hsrc & Hrep & Hoff & _).
    assert (mp' = mp) as -> by congruence.
    by exists mat, t, tex.
  - by destruct Htex as (_ & _ & _ & _ & ? & ? & ? & _).
Qed.

(** A pass on a well-formed store returns and shows the image of every part
    that has a texture. *)
Lemma reconcile_shows_image st aniso sc w name o obj url mp :
  state_ok st = true → world_okb w = true →
  alias_free sc (objs w) = true → name ∈ PART_NAMES →
  lookup_node sc (objs w) name = Some o → objs w !! o = Some obj →
  isMesh obj = true →
  truthy_str (mjoin (textures st !! name)) = Some url →
  mappings st !! name = Some mp →
  ∃ w', reconcile st aniso sc w = Some w' ∧ world_ok w' ∧
    shown (rendered st name) w' o ∧ shows_image w' o url mp.
Proof.
  intros Hst Hw Hfree Hname Hlook Ho Hmesh Hurl Hmp.
  apply world_okb_sound in Hw.
  destruct (reconcile_total st aniso sc w Hst Hw) as (w' & Hrun & Hw').
  exists w'. do 2 (split; [done|]).
  assert (shown (rendered st name) w' o) as Hshown
    by by apply (reconcile_shown st aniso sc w w' name o obj).
  split; [done|]. by eapply shown_shows_image.
Qed.

(** ** Cloning happens on the first touch only *)

Lemma static_lookup (os os' : list Object3D) o obj :
  static_of <$> os = static_of <$> os' → os !! o = Some obj →
  ∃ obj', os' !! o = Some obj' ∧ static_of obj' = static_of obj.
Proof.
  intros Hst Ho.
  assert ((static_of <$> os') !! o = Some (static_of obj)) as Hs
    by by rewrite <- Hst, list_lookup_fmap, Ho.
  rewrite list_lookup_fmap in Hs.
  destruct (os' !! o) as [obj'|]; [|done]. exists obj'.
  split; [done|]. simpl in Hs. congruence.
Qed.

Lemma static_isMesh a b : static_of a = static_of b → isMesh a = isMesh b.
Proof. unfold static_of. congruence. Qed.

Lemma cloned_since_extends w o obj u u' :
  cloned_since w o obj u → extends u u' → cloned_since w o obj u'.
Proof.
  intros (obj1 & Ho & Hcl & Hold & Hnew) (_ & Hlen & _ & _ & _ & Hkeep).
  destruct (Hkeep o obj1 Ho Hcl) as (obj2 & Ho2 & Hcl2 & Hmat).
  exists obj2. split; [done|]. split; [done|]. rewrite Hmat.
  split; [done|]. intros Hc m Hm. destruct (Hnew Hc m Hm). lia.
Qed.

Lemma parts_cloned_extends sc u u' :
  parts_cloned sc u → extends u u' → parts_cloned sc u'.
Proof.
  intros Hpc Hext name o obj' Hname Hlook Ho' Hmesh.
  rewrite (extends_lookup_node sc u u') in Hlook by done.
  destruct Hext as (Hst & _ & _ & _ & _ & Hkeep).
  destruct (static_lookup _ _ o obj' Hst Ho') as (obj & Ho & Hs).
  apply static_isMesh in Hs.
  assert (cloned obj = true) as Hcl by (eapply Hpc; [done..|congruence]).
  destruct (Hkeep o obj Ho Hcl) as (obj2 & Ho2 & Hcl2 & _). congruence.
Qed.

(** After one pass, the mesh of every part is marked; it kept its material
    reference if it was marked before, and has fresh materials if not. *)
Lemma reconcile_cloned_since st aniso sc w w' name o obj :
  name ∈ PART_NAMES → lookup_node sc (objs w) name = Some o →
  objs w !! o = Some obj → isMesh obj = true →
  reconcile st aniso sc w = Some w' → cloned_since w o obj w'.
Proof.
  intros Hname Hlook Ho Hmesh Hrun.
  assert (∀ q u u', extends w u →
            objs u !! o = Some obj ∨ cloned_since w o obj u →
            reconcile_part st aniso sc q u = Some u' →
            (objs u' !! o = Some obj ∨ cloned_since w o obj u') ∧
            (lookup_node sc (objs w) q = Some o → cloned_since w o obj u'))
    as Hstep.
  { intros q u u' Hext [Hu|Hu] Hq;
      pose proof (reconcile_part_extends _ _ _ _ _ _ Hq) as Hext'.
    2: { split; [right|intros _]; by eapply cloned_since_extends. }
    rewrite <- (extends_lookup_node sc w u) by done.
    destruct (reconcile_part_inv _ _ _ _ _ _ Hq)
      as [[-> Hskip]|(o' & obj0 & _ & _ & _ & Hlook' & Ho' & Hm' & _)].
    { split; [by left|]. intros Hhit. specialize (Hskip o obj Hhit Hu).
      congruence. }
    destruct (reconcile_part_mesh _ _ _ _ _ _ _ _ Hlook' Ho' Hm' Hq)
      as (obj' & k & Hobjs & _ & Hcl & Hlen & Hcase & _).
    destruct (decide (o' = o)) as [->|Hne].
    - assert (obj0 = obj) as -> by congruence.
      assert (cloned_since w o obj u') as Hcs.
      { exists obj'. split.
        { rewrite Hobjs. apply list_lookup_insert_eq.
          by eapply lookup_lt_Some. }
        split; [done|]. destruct (cloned obj).
        - destruct Hcase as [-> _]. done.
        - destruct Hcase as [-> _]. split; [done|]. intros _ m Hm.
          apply elem_of_seq in Hm. destruct Hext as (_ & ? & _). lia. }
      split; [by right|done].
    - split; [left; by rewrite Hobjs, list_lookup_insert_ne|].
      rewrite Hlook'. congruence. }
  apply (forEach_establish (reconcile_part st aniso sc)
           (λ u, extends w u ∧
                 (objs u !! o = Some obj ∨ cloned_since w o obj u))
           (cloned_since w o obj)
           (λ q, lookup_node sc (objs w) q = Some o) PART_NAMES w w');
    try done.
  - intros q. destruct (decide (lookup_node sc (objs w) q = Some o)); auto.
  - intros q u u' _ [Hext Hu] Hq. split.
    + eapply extends_trans; [done|]. by eapply reconcile_part_extends.
    + by apply (Hstep q u u').
  - intros q u u' _ Hhit [Hext Hu] Hq. by apply (Hstep q u u').
  - intros q u u' _ _ _ Hu Hq. eapply cloned_since_extends; [done|].
    by eapply reconcile_part_extends.
  - eauto.
  - split; [apply extends_refl|by left].
Qed.

(** The clone block copies: the new materials are the materials the node
    referred to, appended to the store in the order of the slot. *)
Lemma clone_materials_copies o w w1 obj :
  objs w !! o = Some obj → cloned obj = false →
  clone_materials o w = Some w1 →
  ∃ originals,
    Forall2 (λ m mat, mats w !! m = Some mat)
      (as_array (material obj)) originals ∧
    mats w1 = mats w ++ originals ∧
    objs w1 !! o
    = Some (mark_cloned
              (like_slot (material obj)
                 (seq (length (mats w)) (length originals))) obj).
Proof.
  intros Ho Hcl. unfold clone_materials. rewrite Ho, Hcl.
  destruct (mapM _ _) as [originals|] eqn:Hmap; [|done]. intros [= <-].
  exists originals. apply mapM_Some in Hmap. do 2 (split; [done|]).
  simpl. apply list_lookup_insert_eq. by eapply lookup_lt_Some.
Qed.

(** No iteration of [PART_NAMES.forEach] removes a material or writes one
    of its secondary maps. *)
Lemma reconcile_part_keeps_secondary st aniso sc q w w' m mat :
  reconcile_part st aniso sc q w = Some w' → mats w !! m = Some mat →
  ∃ mat', mats w' !! m = Some mat' ∧
    secondary_maps mat' = secondary_maps mat.
Proof.
  intros Hrun Hm.
  destruct (reconcile_part_inv _ _ _ _ _ _ Hrun)
    as [[-> _]|(o & obj & w1 & mesh & w2 & _ & Ho & _ & Hclone & Hmesh
                & Hloop & ->)]; [by exists mat|].
  destruct (clone_materials_spec _ _ _ _ Ho Hclone)
    as (mesh' & originals & _ & Hmats & _).
  assert (mats w1 !! m = Some mat) as Hm1.
  { rewrite Hmats. by apply lookup_app_l_Some. }
  destruct (materials_loop_frame st aniso q _ _ _ Hloop)
    as (Hobjs2 & _ & _ & _ & _ & Hsec).
  destruct (Hsec m mat Hm1) as (mat' & Hm' & Hs).
  exists mat'. split; [|done].
  assert (objs w2 !! o = Some mesh) as Hmesh2 by by rewrite Hobjs2.
  by destruct (outline_step_spec st q o w2 mesh Hmesh2)
    as (obj' & _ & -> & _).
Qed.

(** After one pass, the mesh of a part that was unmarked carries one clone
    for each material it had, in the same slot shape. *)
Lemma reconcile_copied_since st aniso sc w w' name o obj :
  world_ok w → name ∈ PART_NAMES → lookup_node sc (objs w) name = Some o →
  objs w !! o = Some obj → isMesh obj = true → cloned obj = false →
  reconcile st aniso sc w = Some w' → copied_since w o obj w'.
Proof.
  intros Hw Hname Hlook Ho Hmesh Hcl Hrun.
  pose (I := λ u : World,
    extends w u ∧
    (∀ m mat, mats w !! m = Some mat →
       ∃ mat', mats u !! m = Some mat' ∧
         secondary_maps mat' = secondary_maps mat) ∧
    (objs u !! o = Some obj ∨ copied_since w o obj u)).
  assert (I w') as (_ & _ & [Hsame|Hdone]); [|exfalso|done].
  2: { destruct (reconcile_cloned_since st aniso sc w w' name o obj
                   Hname Hlook Ho Hmesh Hrun) as (obj1 & Ho1 & Hcl1 & _).
       congruence. }
  apply (forEach_invariant (reconcile_part st aniso sc) I PART_NAMES w w');
    [|split; [apply extends_refl|split; [eauto|by left]]|exact Hrun].
  intros q u u' _ (Hext & Hsec & Hnode) Hq.
  pose proof (reconcile_part_extends _ _ _ _ _ _ Hq) as Hext'.
  split; [by eapply extends_trans|]. split.
  { intros m mat Hm. destruct (Hsec m mat Hm) as (mat1 & Hm1 & Hs1).
    destruct (reconcile_part_keeps_secondary _ _ _ _ _ _ _ _ Hq Hm1)
      as (mat2 & Hm2 & Hs2).
    exists mat2. split; [done|congruence]. }
  destruct Hnode as [Hu|(obj1 & Ho1 & Hcl1 & Harr & Hlen & Hall)].
  - destruct (reconcile_part_inv _ _ _ _ _ _ Hq)
      as [[-> _]|(o' & obj0 & w1 & mesh & w2 & Hlook' & Ho' & Hm' & Hclone
                  & Hmesh1 & Hloop & Heq)]; [by left|].
    destruct (decide (o' = o)) as [->|Hne].
    + right. assert (obj0 = obj) as -> by congruence.
      destruct (clone_materials_copies o u w1 obj Hu Hcl Hclone)
        as (originals & HF & Hmats1 & Hmesh1').
      pose proof (Forall2_length _ _ _ HF) as Hlen.
      destruct (materials_loop_frame st aniso q _ _ _ Hloop)
        as (Hobjs2 & _ & _ & _ & _ & Hsec2).
      assert (objs w2 !! o = Some mesh) as Hmesh2 by by rewrite Hobjs2.
      destruct (outline_step_spec st q o w2 mesh Hmesh2)
        as (obj' & Hobjs' & Hmats' & _ & _ & _ & Hmat' & Hcl' & _).
      assert (mesh = mark_cloned
                (like_slot (material obj)
                   (seq (length (mats u)) (length originals))) obj)
        as Hmesh_eq by congruence.
      assert (as_array (material obj')
              = seq (length (mats u)) (length originals)) as Hslot.
      { rewrite Hmat', Hmesh_eq. simpl. apply as_array_like_slot.
        by rewrite length_seq. }
      exists obj'. split.
      { rewrite Heq, Hobjs'. apply list_lookup_insert_eq.
        by eapply lookup_lt_Some. }
      split; [by rewrite Hcl', Hmesh_eq|]. split.
      { rewrite Hmat', Hmesh_eq. simpl. by destruct (material obj). }
      split; [by rewrite Hslot, length_seq|].
      intros i m Hi.
      destruct (Forall2_lookup_l _ _ _ _ _ HF Hi) as (mat_u & Hori & Hmu).
      pose proof (lookup_lt_Some _ _ _ Hori) as Hi_lt.
      assert (m < length (mats w)) as Hm_lt.
      { apply (ok_valid w Hw o obj m Ho). by eapply list_elem_of_lookup_2. }
      apply lookup_lt_is_Some_2 in Hm_lt as [mat Hmat].
      destruct (Hsec m mat Hmat) as (mat1 & Hm1 & Hs1).
      assert (mat1 = mat_u) as -> by congruence.
      assert (mats w1 !! (length (mats u) + i) = Some mat_u) as Hclone_i.
      { rewrite Hmats1, lookup_app_r by lia.
        by replace (length (mats u) + i - length (mats u)) with i by lia. }
      destruct (Hsec2 _ _ Hclone_i) as (mat' & Hm2 & Hs2).
      exists (length (mats u) + i), mat, mat'. split.
      { rewrite Hslot. by apply lookup_seq_lt. }
      split; [destruct Hext as (_ & ? & _); lia|].
      split; [done|]. split; [by rewrite Heq, Hmats'|congruence].
    + left.
      destruct (reconcile_part_mesh _ _ _ _ _ _ _ _ Hlook' Ho' Hm' Hq)
        as (obj' & k & Hobjs & _).
      by rewrite Hobjs, list_lookup_insert_ne.
  - right. destruct Hext' as (_ & _ & _ & _ & _ & Hkeep).
    destruct (Hkeep o obj1 Ho1 Hcl1) as (obj2 & Ho2 & Hcl2 & Hmat2).
    exists obj2. rewrite Hmat2. do 4 (split; [done|]).
    intros i m Hi.
    destruct (Hall i m Hi) as (m' & mat & mat' & Hi' & Hge & Hmat & Hm' & Hs).
    destruct (reconcile_part_keeps_secondary _ _ _ _ _ _ _ _ Hq Hm')
      as (mat2 & Hm2 & Hs2).
    exists m', mat, mat2. do 3 (split; [done|]). split; [done|congruence].
Qed.

Lemma reconcile_parts_cloned st aniso sc w w' :
  reconcile st aniso sc w = Some w' → parts_cloned sc w'.
Proof.
  intros Hrun name o obj' Hname Hlook Ho' Hmesh.
  pose proof (reconcile_extends _ _ _ _ _ Hrun) as Hext.
  rewrite (extends_lookup_node sc w w') in Hlook by done.
  destruct Hext as (Hst & _).
  destruct (static_lookup _ _ o obj' Hst Ho') as (obj & Ho & Hs).
  apply static_isMesh in Hs.
  destruct (reconcile_cloned_since st aniso sc w w' name o obj)
    as (obj1 & Ho1 & Hcl & _); try done; congruence.
Qed.

(** Once the meshes of all parts are marked, a pass allocates no material. *)
Lemma reconcile_when_cloned st aniso sc w w' :
  parts_cloned sc w → reconcile st aniso sc w = Some w' →
  parts_cloned sc w' ∧ length (mats w') = length (mats w).
Proof.
  intros Hpc.
  apply (forEach_invariant (reconcile_part st aniso sc)
           (λ u, parts_cloned sc u ∧ length (mats u) = length (mats w)));
    [|done].
  intros q u u' Hq [Hu Hlen] Hstep. split.
  - eapply parts_cloned_extends; [done|]. by eapply reconcile_part_extends.
  - destruct (reconcile_part_inv _ _ _ _ _ _ Hstep)
      as [[-> _]|(o & obj & _ & _ & _ & Hlook & Ho & Hm & _)]; [done|].
    destruct (reconcile_part_mesh _ _ _ _ _ _ _ _ Hlook Ho Hm Hstep)
      as (obj' & k & _ & _ & _ & Hlen' & Hcase & _).
    rewrite (Hu q o obj Hq Hlook Ho Hm) in Hcase. destruct Hcase as [_ ->].
    lia.
Qed.

Lemma passes_when_cloned sts aniso sc w w' :
  parts_cloned sc w → passes sts aniso sc w = Some w' →
  parts_cloned sc w' ∧ length (mats w') = length (mats w).
Proof.
  intros Hpc.
  apply (forEach_invariant (λ st, reconcile st aniso sc)
           (λ u, parts_cloned sc u ∧ length (mats u) = length (mats w)));
    [|done].
  intros st u u' _ [Hu Hlen] Hstep.
  destruct (reconcile_when_cloned st aniso sc u u' Hu Hstep). split; [done|].
  lia.
Qed.

(** ** The outline is replaced, never stacked *)

Lemma selected_spec st name :
  selected st name = true ↔
  interactive st = true ∧ selectedPart st = Some name.
Proof.
  unfold selected. rewrite andb_true_iff, bool_decide_eq_true. done.
Qed.

Lemma overlays_at_most_one w o obj :
  overlays_tracked w → objs w !! o = Some obj →
  length (overlays obj) ≤ 1 ∧ overlays obj = option_list (outline obj).
Proof.
  intros HO Ho. destruct (HO o obj Ho) as [-> _].
  split; [|done]. destruct (outline obj); simpl; lia.
Qed.

(** One iteration on node [o], seen from the start of the pass. *)
Lemma reconcile_part_overlay st aniso sc w o obj q u u' :
  q ∈ PART_NAMES → objs w !! o = Some obj → isMesh obj = true →
  extends w u → world_ok u →
  objs u !! o = Some obj ∨ overlay_since st sc w o obj u →
  reconcile_part st aniso sc q u = Some u' →
  (objs u' !! o = Some obj ∨ overlay_since st sc w o obj u') ∧
  (overlay_since st sc w o obj u ∨ lookup_node sc (objs w) q = Some o →
   overlay_since st sc w o obj u').
Proof.
  intros Hq Ho Hmesh Hext Hok Hu Hstep.
  pose proof (reconcile_part_extends _ _ _ _ _ _ Hstep) as Hext'.
  rewrite <- (extends_lookup_node sc w u) by done.
  destruct (extends_isMesh w u o obj Hext Ho) as (obj_u & Hou & Hst_u).
  apply static_isMesh in Hst_u.
  destruct (reconcile_part_inv _ _ _ _ _ _ Hstep)
    as [[-> Hskip]|(o' & obj0 & _ & _ & _ & Hlook' & Ho' & Hm' & _)].
  { split; [done|]. intros [?|Hhit]; [done|].
    specialize (Hskip o obj_u Hhit Hou). congruence. }
  destruct (reconcile_part_mesh _ _ _ _ _ _ _ _ Hlook' Ho' Hm' Hstep)
    as (obj' & k & Hobjs & _ & _ & _ & _ & _ & _ & _ & Hlines & Hol & Hkids).
  destruct (decide (o' = o)) as [->|Hne].
  2: { assert (objs u' !! o = objs u !! o) as Hsame
         by by rewrite Hobjs, list_lookup_insert_ne.
       assert (overlay_since st sc w o obj u →
               overlay_since st sc w o obj u') as Hkeep.
       { intros (objA & HA & Hold & Hnew).
         exists objA. split; [congruence|]. split; [|done].
         intros l Hl. destruct (Hold l Hl) as (Hnot & ln & Hln & Hg & Hmd).
         split; [done|]. destruct Hext' as (_ & _ & _ & _ & Hd & _).
         destruct (Hd l ln Hln) as (ln' & Hln' & Hg' & Hmd').
         exists ln'. auto. }
       split.
       - destruct Hu as [Hu|Hu]; [left; congruence|right; auto].
       - intros [?|Hhit]; [auto|]. congruence. }
  assert (obj0 = obj_u) as -> by congruence.
  assert (overlay_since st sc w o obj u') as Hsince.
  2: { split; [by right|done]. }
  exists obj'. split.
  { rewrite Hobjs. apply list_lookup_insert_eq. by eapply lookup_lt_Some. }
  destruct Hok as [_ _ HO]. destruct (HO o obj_u Hou) as [Hk Hvalid].
  split.
  - intros l Hl.
    assert (l < length (lines u) ∧
            (outline obj_u = Some l ∨
             ((l ∉ overlays obj_u) ∧
              ∃ ln, lines u !! l = Some ln ∧ geometry_disposed ln = true ∧
                material_disposed ln = true))) as [Hlt Hcase].
    { destruct Hu as [Hu|(objA & HA & Hold & _)].
      - assert (obj_u = obj) as -> by congruence. split; [by apply Hvalid|].
        by left.
      - assert (objA = obj_u) as -> by congruence.
        destruct (Hold l Hl) as (Hnot & ln & Hln & Hd).
        split; [by eapply lookup_lt_Some|]. right. eauto. }
    destruct (lookup_lt_is_Some_2 _ _ Hlt) as [ln0 Hln0].
    destruct (dispose_lookup (lines u) (outline obj_u) l ln0 Hln0)
      as (ln' & Hln' & Hg & Hmd & Hnow).
    split.
    + rewrite Hkids, Hk. intros [Hin|Hin]%elem_of_app.
      * destruct (outline obj_u) as [l0|]; simpl in Hin.
        -- apply list_elem_of_filter in Hin as [Hne Hin].
           apply list_elem_of_singleton in Hin. done.
        -- by apply elem_of_nil in Hin.
      * destruct (selected st q); [|by apply elem_of_nil in Hin].
        apply list_elem_of_singleton in Hin. lia.
    + exists ln'. split; [rewrite Hlines; by apply lookup_app_l_Some|].
      destruct Hcase as [Hsame|(_ & ln & Hln & Hgd & Hmdd)].
      * by apply Hnow.
      * assert (ln = ln0) as -> by congruence. auto.
  - intros l Hl. rewrite Hol in Hl.
    destruct (selected st q) eqn:Hsel; [|done]. injection Hl as <-.
    apply selected_spec in Hsel as [Hi Hs].
    split; [by destruct Hext as (_ & _ & _ & ? & _)|]. split; [done|].
    exists q. rewrite (extends_lookup_node sc w u) in Hlook' by done.
    done.
Qed.

(** After one pass on a well-formed store, the old outline of every part's
    mesh is released and a present outline belongs to the selection. *)
Lemma reconcile_overlay_since st aniso sc w w' name o obj :
  world_ok w → name ∈ PART_NAMES →
  lookup_node sc (objs w) name = Some o → objs w !! o = Some obj →
  isMesh obj = true →
  reconcile st aniso sc w = Some w' → overlay_since st sc w o obj w'.
Proof.
  intros Hw Hname Hlook Ho Hmesh Hrun.
  apply (forEach_establish (reconcile_part st aniso sc)
           (λ u, (extends w u ∧ world_ok u) ∧
                 (objs u !! o = Some obj ∨ overlay_since st sc w o obj u))
           (overlay_since st sc w o obj)
           (λ q, lookup_node sc (objs w) q = Some o) PART_NAMES w w');
    try done.
  - intros q. destruct (decide (lookup_node sc (objs w) q = Some o)); auto.
  - intros q u u' Hq [[Hext Hok] Hu] Hstep. split; [split|].
    + eapply extends_trans; [done|]. by eapply reconcile_part_extends.
    + by eapply reconcile_part_world_ok.
    + by apply (reconcile_part_overlay st aniso sc w o obj q u u').
  - intros q u u' Hq Hhit [[Hext Hok] Hu] Hstep.
    apply (reconcile_part_overlay st aniso sc w o obj q u u'); auto.
  - intros q u u' Hq _ [[Hext Hok] Hu'] Hu Hstep.
    apply (reconcile_part_overlay st aniso sc w o obj q u u'); auto.
  - eauto.
  - split; [split; [apply extends_refl|done]|by left].
Qed.

(** ** Completing texture loads *)




(** The colour-only page does strip them: a material with a colour ends up
    with none of the six maps. *)
Lemma ColorOnly_paint_strips_maps c m :
  ColorOnly.hasColorProp m = true →
  let m' := ColorOnly.paint c m in
  ColorOnly.any_map m' = None ∧ ColorOnly.any_normalMap m' = None ∧
  ColorOnly.any_roughnessMap m' = None ∧
  ColorOnly.any_metalnessMap m' = None ∧
  ColorOnly.any_bumpMap m' = None ∧ ColorOnly.any_aoMap m' = None ∧
  (is_Some (ColorOnly.any_roughness m) →
   ColorOnly.any_roughness m' = Some 1%float) ∧
  (is_Some (ColorOnly.any_metalness m) →
   ColorOnly.any_metalness m' = Some 0%float).
Proof.
  intros Hc. unfold ColorOnly.paint. rewrite Hc. simpl.
  do 6 (split; [done|]). split; intros [? ->]; done.
Qed.

(** In the page with textures every iteration keeps the five secondary
    maps of the material it is given. *)
Lemma reconcile_material_keeps_secondary_maps st aniso name m w w' mat :
  reconcile_material st aniso name m w = Some w' →
  mats w !! m = Some mat →
  ∃ mat', mats w' !! m = Some mat' ∧
    secondary_maps mat' = secondary_maps mat.
Proof.
  intros Hstep Hm.
  apply reconcile_material_spec in Hstep
    as (_ & _ & mat0 & mat' & Hm0 & -> & Hsec & _).
  exists mat'. rewrite list_lookup_insert_eq by by eapply lookup_lt_Some.
  split; [done|]. congruence.
Qed.

(** * The claims *)

(** C1. For a part of [PART_NAMES], a message with a colour stores the
    colour and clears the texture reference; a following message with an
    image stores the reference and keeps the colour; and a pass of the
    effect on that state shows the image on the part's mesh (white tint,
    [map] loaded from the image) while the colour stays in the state. *)
Theorem C1_color_then_image_keeps_color st p c url :
  includes PART_NAMES p = true → c ≠ "" → url ≠ "" →
  let st1 := handler {| part := p; color := Some c; mapping := None;
                        image := None |} st in
  let st2 := handler {| part := p; color := None; mapping := None;
                        image := Some url |} st1 in
  (colors st1 !! p = Some c ∧ textures st1 !! p = Some None) ∧
  (textures st2 !! p = Some (Some url) ∧ colors st2 = colors st1 ∧
   colors st2 !! p = Some c) ∧
  ∀ aniso sc w o obj,
    state_ok st = true → world_okb w = true →
    alias_free sc (objs w) = true →
    lookup_node sc (objs w) p = Some o → objs w !! o = Some obj →
    isMesh obj = true →
    ∃ w' mp, reconcile st2 aniso sc w = Some w' ∧ shows_image w' o url mp ∧
      colors st2 !! p = Some c.
Proof.
  intros Hp Hc Hurl st1 st2.
  assert (truthy_str (Some c) = Some c) as Htc
    by (apply truthy_str_Some; done).
  assert (truthy_str (Some url) = Some url) as Htu
    by (apply truthy_str_Some; done).
  assert (st1 = setTextures <[p := None]> (setColors <[p := c]> st)) as Hst1.
  { unfold st1, handler. cbn [part color mapping image].
    rewrite Hp, Htc. reflexivity. }
  assert (st2 = setTextures <[p := Some url]> st1) as Hst2.
  { unfold st2, handler. cbn [part color mapping image].
    rewrite Hp, Htu. reflexivity. }
  assert (colors st2 !! p = Some c) as Hcol.
  { rewrite Hst2, Hst1. simpl. apply lookup_insert_eq. }
  assert (textures st2 !! p = Some (Some url)) as Htex.
  { rewrite Hst2. simpl. apply lookup_insert_eq. }
  split; [|split; [split; [done|split; [by rewrite Hst2|done]]|]].
  - rewrite Hst1. simpl. by rewrite !lookup_insert_eq.
  - intros aniso sc w o obj Hst Hw Hfree Hlook Ho Hmesh.
    assert (state_ok st2 = true) as Hok.
    { rewrite state_ok_spec in Hst |- *. intros q Hq.
      rewrite Hst2, Hst1. simpl. by apply Hst. }
    apply includes_elem_of in Hp.
    destruct (proj1 (state_ok_spec st2) Hok p Hp) as [mp Hmp].
    destruct (reconcile_shows_image st2 aniso sc w p o obj url mp)
      as (w' & Hrun & _ & _ & Hshow); try done.
    { by rewrite Htex. }
    by exists w', mp.
Qed.

Lemma C1_color_then_image_keeps_color_witness :
  let st1 := handler {| part := "midsole"; color := Some "#ff0000";
                        mapping := None; image := None |} initialState in
  let st2 := handler {| part := "midsole"; color := None; mapping := None;
                        image := Some "blob:1" |} st1 in
  (colors st1 !! "midsole" = Some "#ff0000" ∧
   textures st1 !! "midsole" = Some None) ∧
  (textures st2 !! "midsole" = Some (Some "blob:1") ∧
   colors st2 = colors st1 ∧ colors st2 !! "midsole" = Some "#ff0000") ∧
  ∃ w' mp, reconcile st2 16%float example_scene example_world = Some w' ∧
    shows_image w' 1 "blob:1" mp ∧ colors st2 !! "midsole" = Some "#ff0000".
Proof.
  destruct (C1_color_then_image_keeps_color initialState "midsole" "#ff0000"
              "blob:1") as (H1 & H2 & H3);
    [reflexivity|discriminate|discriminate|].
  split; [exact H1|]. split; [exact H2|].
  eapply (H3 16%float example_scene example_world 1); reflexivity.
Defined.

(** C2. For a part with an active texture and the stored mapping
    [{offsetX, offsetY, scale}], a pass of the effect leaves on every
    material of the part's mesh a [map] whose repeat is
    [(2 * scale, 2 * scale)] and whose offset is [(offsetX, offsetY)]; the
    mapping [{0.25, -0.1, 2}] gives repeat [(4, 4)] and offset
    [(0.25, -0.1)]. *)
Theorem C2_uv_transform_applied st aniso sc w name o obj url mp :
  state_ok st = true → world_okb w = true →
  alias_free sc (objs w) = true → includes PART_NAMES name = true →
  lookup_node sc (objs w) name = Some o → objs w !! o = Some obj →
  isMesh obj = true →
  truthy_str (mjoin (textures st !! name)) = Some url →
  mappings st !! name = Some mp →
  (∃ w' mesh, reconcile st aniso sc w = Some w' ∧
     objs w' !! o = Some mesh ∧
     ∀ m, m ∈ as_array (material mesh) →
       ∃ mat t tex, mats w' !! m = Some mat ∧ mat_map mat = Some t ∧
         texs w' !! t = Some tex ∧
         tex_repeat tex = ((2 * scale mp)%float, (2 * scale mp)%float) ∧
         tex_offset tex = (offsetX mp, offsetY mp)) ∧
  ∀ t, tex_repeat (apply_mapping example_mapping t) = (4%float, 4%float) ∧
       tex_offset (apply_mapping example_mapping t)
       = (0.25%float, (-0.1)%float).
Proof.
  intros Hst Hw Hfree Hname Hlook Ho Hmesh Hurl Hmp. split; [|done].
  apply includes_elem_of in Hname.
  destruct (reconcile_shows_image st aniso sc w name o obj url mp)
    as (w' & Hrun & _ & _ & mesh & Hmesh' & Hshow); try done.
  exists w', mesh. do 2 (split; [done|]). intros m Hm.
  destruct (Hshow m Hm) as (mat & t & tex & ? & ? & ? & _ & _ & ? & ?).
  by exists mat, t, tex.
Qed.

Lemma C2_uv_transform_applied_witness :
  let st := handler {| part := "upper"; color := None;
                       mapping := Some example_mapping;
                       image := Some "blob:1" |} initialState in
  (∃ w' mesh, reconcile st 16%float example_scene example_world = Some w' ∧
     objs w' !! 3 = Some mesh ∧
     ∀ m, m ∈ as_array (material mesh) →
       ∃ mat t tex, mats w' !! m = Some mat ∧ mat_map mat = Some t ∧
         texs w' !! t = Some tex ∧
         tex_repeat tex = (4%float, 4%float) ∧
         tex_offset tex = (0.25%float, (-0.1)%float)) ∧
  ∀ t, tex_repeat (apply_mapping example_mapping t) = (4%float, 4%float) ∧
       tex_offset (apply_mapping example_mapping t)
       = (0.25%float, (-0.1)%float).
Proof.
  eapply (C2_uv_transform_applied _ 16%float example_scene example_world
            "upper" 3 _ "blob:1" example_mapping); reflexivity.
Defined.

(** C3. A channel message whose [part] is not one of [PART_NAMES] leaves the
    whole state (colours, textures, mappings, selection, interaction flag)
    as it was; the listener is a total function, so nothing is raised. *)
Theorem C3_unknown_part_ignored msg st :
  includes PART_NAMES (part msg) = false → handler msg st = st.
Proof. apply handler_unknown. Qed.

Lemma C3_unknown_part_ignored_witness :
  handler {| part := "wheel"; color := Some "#ff0000";
             mapping := Some example_mapping; image := Some "blob:1" |}
    initialState = initialState.
Proof. apply C3_unknown_part_ignored. reflexivity. Defined.

(** C4. A node's material is cloned on the first pass that touches it and
    never again: after the first pass of a session the mesh of every part
    carries the mark, with its old material reference if it was marked
    before; if it was not, its material is an array exactly when it was
    one, with as many entries, each a freshly allocated material that has
    the secondary maps of the material it replaces. Through all later
    passes (in particular a second pass with the same state) every marked
    node keeps its material reference and no material is allocated. *)
Theorem C4_material_cloned_once st sts aniso sc w :
  state_ok st = true → forallb state_ok sts = true → world_okb w = true →
  ∃ w1 wn,
    reconcile st aniso sc w = Some w1 ∧ passes sts aniso sc w1 = Some wn ∧
    length (mats wn) = length (mats w1) ∧
    (∀ o obj1, objs w1 !! o = Some obj1 → cloned obj1 = true →
       ∃ objn, objs wn !! o = Some objn ∧ cloned objn = true ∧
         material objn = material obj1) ∧
    ∀ name o obj, name ∈ PART_NAMES →
      lookup_node sc (objs w) name = Some o → objs w !! o = Some obj →
      isMesh obj = true →
      cloned_since w o obj w1 ∧
      (cloned obj = false → copied_since w o obj w1).
Proof.
  intros Hst Hsts Hw. apply world_okb_sound in Hw.
  destruct (reconcile_total st aniso sc w Hst Hw) as (w1 & Hrun1 & Hw1).
  destruct (passes_total sts aniso sc w1) as (wn & Hrunn & _); [|done|].
  { apply Forall_forall. intros s Hs. rewrite forallb_forall in Hsts.
    by apply Hsts, list_elem_of_In. }
  exists w1, wn. do 2 (split; [done|]).
  pose proof (reconcile_parts_cloned _ _ _ _ _ Hrun1) as Hpc.
  destruct (passes_when_cloned sts aniso sc w1 wn Hpc Hrunn) as [_ Hlen].
  split; [done|]. split.
  - intros o obj1 Ho Hcl.
    destruct (passes_extends _ _ _ _ _ Hrunn) as (_ & _ & _ & _ & _ & Hkeep).
    by apply Hkeep.
  - intros name o obj Hname Hlook Ho Hmesh. split.
    + by apply (reconcile_cloned_since st aniso sc w w1 name o obj).
    + intros Hcl.
      by apply (reconcile_copied_since st aniso sc w w1 name o obj).
Qed.

Lemma C4_material_cloned_once_witness :
  ∃ w1 wn,
    reconcile initialState 16%float example_scene example_world = Some w1 ∧
    passes [initialState; onPointerDown "logo" initialState] 16%float
      example_scene w1 = Some wn ∧
    length (mats wn) = length (mats w1) ∧
    (∀ o obj1, objs w1 !! o = Some obj1 → cloned obj1 = true →
       ∃ objn, objs wn !! o = Some objn ∧ cloned objn = true ∧
         material objn = material obj1) ∧
    ∀ name o obj, name ∈ PART_NAMES →
      lookup_node example_scene (objs example_world) name = Some o →
      objs example_world !! o = Some obj →
      isMesh obj = true →
      cloned_since example_world o obj w1 ∧
      (cloned obj = false → copied_since example_world o obj w1).
Proof.
  apply (C4_material_cloned_once initialState
           [initialState; onPointerDown "logo" initialState] 16%float
           example_scene example_world); reflexivity.
Defined.

(** C5. Between passes every node carries zero or one overlay, the one its
    [userData.outline] records. A pass detaches the outline that the mesh
    of a part had and disposes its geometry and its material, and an
    outline present after the pass was created by it, with interaction
    enabled, on the node of the selected part. *)
Theorem C5_overlay_zero_or_one st sts aniso sc w :
  state_ok st = true → forallb state_ok sts = true → world_okb w = true →
  ∃ w' wn,
    reconcile st aniso sc w = Some w' ∧ passes sts aniso sc w' = Some wn ∧
    (∀ o obj, objs w' !! o = Some obj →
       length (overlays obj) ≤ 1 ∧ overlays obj = option_list (outline obj)) ∧
    (∀ o obj, objs wn !! o = Some obj →
       length (overlays obj) ≤ 1 ∧ overlays obj = option_list (outline obj)) ∧
    ∀ name o obj, name ∈ PART_NAMES →
      lookup_node sc (objs w) name = Some o → objs w !! o = Some obj →
      isMesh obj = true → overlay_since st sc w o obj w'.
Proof.
  intros Hst Hsts Hw. apply world_okb_sound in Hw.
  destruct (reconcile_total st aniso sc w Hst Hw) as (w' & Hrun & Hw').
  destruct (passes_total sts aniso sc w') as (wn & Hrunn & Hwn); [|done|].
  { apply Forall_forall. intros s Hs. rewrite forallb_forall in Hsts.
    by apply Hsts, list_elem_of_In. }
  exists w', wn. do 2 (split; [done|]).
  split; [intros o obj; apply overlays_at_most_one; by destruct Hw'|].
  split; [intros o obj; apply overlays_at_most_one; by destruct Hwn|].
  intros name o obj Hname Hlook Ho Hmesh.
  by apply (reconcile_overlay_since st aniso sc w w' name o obj).
Qed.

Lemma C5_overlay_zero_or_one_witness :
  ∃ w' wn,
    reconcile (onPointerDown "logo" initialState) 16%float example_scene
      example_selected_world = Some w' ∧
    passes [toggleInteractive (onPointerDown "logo" initialState)] 16%float
      example_scene w' = Some wn ∧
    (∀ o obj, objs w' !! o = Some obj →
       length (overlays obj) ≤ 1 ∧ overlays obj = option_list (outline obj)) ∧
    (∀ o obj, objs wn !! o = Some obj →
       length (overlays obj) ≤ 1 ∧ overlays obj = option_list (outline obj)) ∧
    ∀ name o obj, name ∈ PART_NAMES →
      lookup_node example_scene (objs example_selected_world) name = Some o →
      objs example_selected_world !! o = Some obj →
      isMesh obj = true →
      overlay_since (onPointerDown "logo" initialState) example_scene
        example_selected_world o obj w'.
Proof.
  apply (C5_overlay_zero_or_one (onPointerDown "logo" initialState)
           [toggleInteractive (onPointerDown "logo" initialState)]
           16%float example_scene example_selected_world); reflexivity.
Defined.

(** C6. Toggling interaction off clears the selection; while interaction is
    off a pointer-down and a pointer-miss leave the state as it is, no event
    other than the toggle changes the selection or the flag, and every state
    the page reaches with interaction off has no selected part. *)
Theorem C6_noninteractive_has_no_selection :
  (∀ st, interactive st = true →
     selectedPart (toggleInteractive st) = None ∧
     interactive (toggleInteractive st) = false) ∧
  (∀ st hit, interactive st = false →
     onPointerDown hit st = st ∧ onPointerMissed st = st) ∧
  (∀ st e, interactive st = false → e ≠ Toggle →
     selectedPart (step st e) = selectedPart st ∧
     interactive (step st e) = false) ∧
  (∀ es, interactive (run es) = false → selectedPart (run es) = None).
Proof.
  split; [|split; [|split]].
  - intros st Hi. unfold toggleInteractive. rewrite Hi. simpl.
    by rewrite Hi.
  - intros st hit Hi. unfold onPointerDown, onPointerMissed. by rewrite Hi.
  - intros st e Hi He. destruct e as [|hit| |msg]; simpl.
    + done.
    + unfold onPointerDown. by rewrite Hi.
    + unfold onPointerMissed. by rewrite Hi.
    + destruct (handler_selection msg st) as [-> ->]. done.
  - apply run_selection_invariant.
Qed.




(** C8, on the code. The material loop of the page forces roughness 1 and
    metalness 0 but writes none of the secondary maps: a baked normal map
    is still on the material of [midsole] after a pass. *)
Theorem C8_secondary_maps_survive :
  ∃ w' mesh m mat,
    reconcile initialState 16%float example_scene example_world = Some w' ∧
    objs w' !! 1 = Some mesh ∧ material mesh = OneMaterial m ∧
    mats w' !! m = Some mat ∧
    mat_roughness mat = 1%float ∧ mat_metalness mat = 0%float ∧
    mat_normalMap mat = Some 0 ∧
    secondary_maps mat ≠ [None; None; None; None; None].
Proof.
  eexists _, _, _, _. split; [vm_compute; reflexivity|].
  do 6 (split; [reflexivity|]). discriminate.
Qed.

(** ** The size of the canvas *)

(** A pixel count that fits [canvas.width] is stored as it is. *)
Lemma set_dimension_fits d v :
  (0 ≤ v ≤ 2147483647)%Z → set_dimension d v = v.
Proof.
  intros Hv. unfold set_dimension. rewrite Z.mod_small by lia.
  destruct (Z.leb_spec v 2147483647); [done|lia].
Qed.

(** A negative number gives the default size, not the number. *)
Lemma set_dimension_negative d v :
  (-2147483648 ≤ v < 0)%Z → set_dimension d v = d.
Proof.
  intros Hv. unfold set_dimension.
  assert (v mod 2 ^ 32 = v + 2 ^ 32)%Z as ->.
  { symmetry. apply (Z.mod_unique_pos _ _ (-1)); lia. }
  destruct (Z.leb_spec (v + 2 ^ 32) 2147483647); [lia|done].
Qed.

(** C9. For a crop region whose width and height are pixel counts that a
    canvas can have (0 to 2147483647): when the source decodes and the
    canvas serializes, [getCroppedImg] resolves with a PNG blob of exactly
    [width] by [height] pixels that holds that region of the source (100
    by 100 for that region of a 400 by 300 image); it rejects when the
    source does not decode and when serialization yields no blob; and when
    it rejects, [applyCrop] leaves the customization state as it was. *)
Theorem C9_crop_pipeline :
  (∀ b src area img,
     decode b src = Some img →
     (0 ≤ crop_width area ≤ 2147483647)%Z →
     (0 ≤ crop_height area ≤ 2147483647)%Z →
     serializes b (cropped_canvas img area) = true →
     ∃ blob, getCroppedImg b src area = inr blob ∧
       blob_type blob = "image/png" ∧
       blob_width blob = crop_width area ∧
       blob_height blob = crop_height area ∧
       blob_content blob =
         Some {| draw_image := img;
                 draw_source := (crop_x area, crop_y area,
                                 crop_width area, crop_height area);
                 draw_dest := (0, 0, crop_width area,
                               crop_height area)%Z |}) ∧
  (∀ b src area, decode b src = None →
     getCroppedImg b src area = inl ImageError) ∧
  (∀ b src area img,
     decode b src = Some img →
     serializes b (cropped_canvas img area) = false →
     getCroppedImg b src area = inl CanvasIsEmpty) ∧
  (∀ b s,
     (∀ src area, truthy_str (imageSrc s) = Some src →
        croppedAreaPixels s = Some area →
        ∃ err, getCroppedImg b src area = inl err) →
     page (applyCrop b s) = page s) ∧
  (∃ blob,
     getCroppedImg example_browser "photo.png"
       {| crop_x := 50; crop_y := 50; crop_width := 100;
          crop_height := 100 |} = inr blob ∧
     blob_type blob = "image/png" ∧
     blob_width blob = 100%Z ∧ blob_height blob = 100%Z).
Proof.
  split; [|split; [|split; [|split]]].
  - intros b src area img Hdec Hw Hh Hser.
    unfold getCroppedImg, createImage, toBlob. rewrite Hdec, Hser.
    eexists. split; [done|]. simpl.
    by rewrite (set_dimension_fits 300 _ Hw), (set_dimension_fits 150 _ Hh).
  - intros b src area Hdec. unfold getCroppedImg, createImage.
    by rewrite Hdec.
  - intros b src area img Hdec Hser. unfold getCroppedImg, createImage, toBlob.
    by rewrite Hdec, Hser.
  - intros b s Hfail. unfold applyCrop.
    destruct (truthy_str (imageSrc s)) as [src|]; [|done].
    destruct (croppedAreaPixels s) as [area|]; [|done].
    destruct (truthy_str (selectedPart (page s))) as [sel|]; [|done].
    destruct (Hfail src area) as [err ->]; done.
  - eexists. split; [reflexivity|]. done.
Qed.

(** * Further properties of the code *)

(** ** The customization state *)

Lemma PageState_eq (a b : PageState) :
  colors a = colors b → textures a = textures b →
  mappings a = mappings b →
  selectedPart a = selectedPart b → interactive a = interactive b → a = b.
Proof. destruct a, b. simpl. by intros -> -> -> -> ->. Qed.

(** What the listener does for a part of [PART_NAMES], field by field. *)
Lemma handler_known msg st :
  includes PART_NAMES (part msg) = true →
  colors (handler msg st) =
    match truthy_str (color msg) with
    | Some c => <[part msg := c]> (colors st)
    | None => colors st
    end ∧
  textures (handler msg st) =
    match truthy_str (image msg) with
    | Some url => <[part msg := Some url]>
    | None => id
    end (match truthy_str (color msg) with
         | Some c => <[part msg := None]> (textures st)
         | None => textures st
         end) ∧
  mappings (handler msg st) =
    match mapping msg with
    | Some mp => <[part msg := mp]> (mappings st)
    | None => mappings st
    end.
Proof.
  intros Hp. unfold handler. rewrite Hp. simpl.
  destruct (truthy_str (color msg)), (mapping msg),
    (truthy_str (image msg)); done.
Qed.

(** X1. A message writes the records of its own part only: the colour, the
    texture reference and the mapping of every other part, the selection
    and the interaction flag are as before. *)
Theorem handler_other_parts msg st q :
  q ≠ part msg →
  colors (handler msg st) !! q = colors st !! q ∧
  textures (handler msg st) !! q = textures st !! q ∧
  mappings (handler msg st) !! q = mappings st !! q ∧
  selectedPart (handler msg st) = selectedPart st ∧
  interactive (handler msg st) = interactive st.
Proof.
  intros Hq. destruct (handler_selection msg st) as [-> ->].
  destruct (includes PART_NAMES (part msg)) eqn:Hp.
  - destruct (handler_known msg st Hp) as (-> & -> & ->).
    destruct (truthy_str (color msg)), (mapping msg),
      (truthy_str (image msg)); simpl;
      rewrite ?lookup_insert_ne by done; done.
  - by rewrite handler_unknown.
Qed.

Lemma handler_other_parts_witness :
  let msg := {| part := "midsole"; color := Some "#ff0000";
                mapping := Some example_mapping; image := Some "blob:1" |} in
  colors (handler msg initialState) !! "logo"
  = colors initialState !! "logo" ∧
  textures (handler msg initialState) !! "logo"
    = textures initialState !! "logo" ∧
  mappings (handler msg initialState) !! "logo"
    = mappings initialState !! "logo" ∧
  selectedPart (handler msg initialState) = selectedPart initialState ∧
  interactive (handler msg initialState) = interactive initialState.
Proof. intros msg. apply handler_other_parts. discriminate. Defined.

Lemma initial_records {V} (v : V) (l : list string) (m : gmap string V) q :
  is_Some (foldl (λ acc p, <[p := v]> acc) m l !! q) ↔
  q ∈ l ∨ is_Some (m !! q).
Proof.
  revert m. induction l as [|p l IH]; intros m; simpl.
  - rewrite elem_of_nil. naive_solver.
  - rewrite IH, elem_of_cons. destruct (decide (p = q)) as [->|Hne].
    + rewrite lookup_insert_eq. naive_solver.
    + rewrite lookup_insert_ne by done. naive_solver.
Qed.

(** X2. In every state the page reaches, the colour map, the texture map and
    the mapping map hold a record for exactly the parts of [PART_NAMES]. *)
Theorem run_one_record_per_part es p :
  (is_Some (colors (run es) !! p) ↔ p ∈ PART_NAMES) ∧
  (is_Some (textures (run es) !! p) ↔ p ∈ PART_NAMES) ∧
  (is_Some (mappings (run es) !! p) ↔ p ∈ PART_NAMES).
Proof.
  unfold run. induction es as [|e es IH] using rev_ind.
  - simpl. unfold initialColors, initialTextures, initialMappings.
    rewrite !initial_records, !lookup_empty.
    pose proof (@is_Some_None string). pose proof (@is_Some_None Mapping).
    pose proof (@is_Some_None (option string)). naive_solver.
  - rewrite foldl_app. cbn [foldl].
    set (st := foldl step initialState es) in *.
    destruct e as [|hit| |msg]; cbn [step].
    + unfold toggleInteractive. by destruct (interactive st).
    + unfold onPointerDown. by destruct (interactive st).
    + unfold onPointerMissed. by destruct (interactive st).
    + destruct (includes PART_NAMES (part msg)) eqn:Hp;
        [|by rewrite handler_unknown].
      destruct (handler_known msg st Hp) as (-> & -> & ->).
      apply includes_elem_of in Hp. destruct IH as (Hc & Ht & Hm).
      assert (∀ {V} (m : gmap string V) v,
                (is_Some (m !! p) ↔ p ∈ PART_NAMES) →
                (is_Some (<[part msg := v]> m !! p) ↔ p ∈ PART_NAMES))
        as Hins.
      { intros V m v Hm'. destruct (decide (part msg = p)) as [<-|Hne].
        - rewrite lookup_insert_eq. naive_solver.
        - by rewrite lookup_insert_ne. }
      destruct (truthy_str (color msg)), (mapping msg),
        (truthy_str (image msg)); simpl; auto 10.
Qed.

(** X3. Receiving the same message twice gives the state of receiving it
    once. *)
Theorem handler_idempotent msg st :
  handler msg (handler msg st) = handler msg st.
Proof.
  destruct (includes PART_NAMES (part msg)) eqn:Hp;
    [|by rewrite !handler_unknown].
  destruct (handler_selection msg (handler msg st)) as [Hs Hi].
  destruct (handler_known msg (handler msg st) Hp) as (Hc & Ht & Hm).
  destruct (handler_known msg st Hp) as (Hc' & Ht' & Hm').
  apply PageState_eq; [| | |done..]; rewrite ?Hc, ?Ht, ?Hm, ?Hc', ?Ht', ?Hm';
    destruct (truthy_str (color msg)), (mapping msg),
      (truthy_str (image msg)); simpl; rewrite ?insert_insert_eq; done.
Qed.

(** X4. A message with several fields has the effect of its one-field
    messages received in the order colour, mapping, image; so a colour and
    an image in one message leave the part with that colour stored and the
    image as its texture. *)
Theorem handler_field_order msg st :
  handler msg st
  = handler (only_image msg) (handler (only_mapping msg)
      (handler (only_color msg) st)) ∧
  (includes PART_NAMES (part msg) = true →
   ∀ c url, truthy_str (color msg) = Some c →
     truthy_str (image msg) = Some url →
     colors (handler msg st) !! part msg = Some c ∧
     textures (handler msg st) !! part msg = Some (Some url)).
Proof.
  destruct (includes PART_NAMES (part msg)) eqn:Hp.
  - split.
    + unfold handler at 2 3 4. unfold handler.
      cbn [part color mapping image only_color only_mapping only_image].
      rewrite Hp. simpl.
      destruct (truthy_str (color msg)), (mapping msg),
        (truthy_str (image msg)); done.
    + intros _ c url Hc Hu.
      destruct (handler_known msg st Hp) as (-> & -> & _).
      rewrite Hc, Hu. by rewrite !lookup_insert_eq.
  - split; [|done]. rewrite !handler_unknown; done.
Qed.

(** X5. An empty colour or image string counts as absent, and only a
    colour clears a texture: after a message without a (non-empty) colour,
    every part that had a texture still has one. *)
Theorem handler_keeps_textures msg st q url :
  truthy_str (color msg) = None →
  truthy_str (mjoin (textures st !! q)) = Some url →
  ∃ url', truthy_str (mjoin (textures (handler msg st) !! q)) = Some url' ∧
    (url' = url ∨ (q = part msg ∧ truthy_str (image msg) = Some url')).
Proof.
  intros Hc Hq. destruct (includes PART_NAMES (part msg)) eqn:Hp.
  - destruct (handler_known msg st Hp) as (_ & -> & _). rewrite Hc.
    destruct (truthy_str (image msg)) as [url'|] eqn:Hi; simpl; [|eauto].
    destruct (decide (part msg = q)) as [<-|Hne].
    + exists url'. rewrite lookup_insert_eq.
      destruct (proj1 (truthy_str_Some _ _) Hi) as [_ Hne].
      split; [by apply truthy_str_Some|auto].
    + rewrite lookup_insert_ne by done. eauto.
  - rewrite handler_unknown by done. eauto.
Qed.

Lemma handler_keeps_textures_witness :
  let st := handler {| part := "logo"; color := None; mapping := None;
                       image := Some "a.png" |} initialState in
  let msg := {| part := "logo"; color := Some ""; mapping := None;
                image := Some "" |} in
  ∃ url', truthy_str (mjoin (textures (handler msg st) !! "logo"))
          = Some url' ∧
    (url' = "a.png" ∨
     ("logo" = part msg ∧ truthy_str (image msg) = Some url')).
Proof. intros st msg. apply handler_keeps_textures; reflexivity. Defined.

(** ** Selection and the heads-up display *)

Lemma part_names_labelled p :
  p ∈ PART_NAMES → p ≠ "" ∧ is_Some (HUMAN_LABELS !! p).
Proof.
  unfold PART_NAMES. rewrite !elem_of_cons, elem_of_nil.
  intros [->|[->|[->|[->|[->|[->|[->|[->|[]]]]]]]]]; split; try done;
    by eexists.
Qed.

Lemma step_selection_valid st e p :
  (∀ q, selectedPart st = Some q → q ∈ PART_NAMES) →
  selectedPart (step st e) = Some p → p ∈ PART_NAMES.
Proof.
  intros Hst. destruct e as [|hit| |msg]; simpl.
  - unfold toggleInteractive. destruct (interactive st); simpl; [done|auto].
  - unfold onPointerDown. destruct (interactive st); [|auto].
    cbn [selectedPart setSelectedPart].
    destruct (includes PART_NAMES hit) eqn:Hhit; [|done].
    intros [= <-]. by apply includes_elem_of.
  - unfold onPointerMissed. destruct (interactive st); simpl; [done|auto].
  - destruct (handler_selection msg st) as [-> _]. auto.
Qed.

Lemma run_selection_valid es p :
  selectedPart (run es) = Some p → p ∈ PART_NAMES.
Proof.
  unfold run. revert p. induction es as [|e es IH] using rev_ind.
  - done.
  - intros p. rewrite foldl_app. simpl. by apply step_selection_valid.
Qed.

(** X6. In every state the page reaches, the selected part, if any, is one
    of [PART_NAMES]; the heads-up display is rendered exactly when a part is
    selected, and its text is then the label of that part, never
    [undefined]. *)
Theorem run_hud_shows_selected_label es :
  (∀ p, selectedPart (run es) = Some p → p ∈ PART_NAMES) ∧
  (hud (run es) = None ↔ selectedPart (run es) = None) ∧
  ∀ text, hud (run es) = Some text →
    ∃ p label, selectedPart (run es) = Some p ∧
      HUMAN_LABELS !! p = Some label ∧ text = Some label.
Proof.
  pose proof (run_selection_valid es) as Hvalid.
  pose proof (run_selection_invariant es) as Hoff.
  split; [done|]. unfold hud.
  destruct (interactive (run es)).
  - destruct (selectedPart (run es)) as [p|] eqn:Hsel; simpl; [|done].
    destruct (part_names_labelled p (Hvalid p eq_refl)) as [Hne [label Hl]].
    destruct (String.eqb_spec p ""); [done|]. split; [done|].
    intros text [= <-]. by exists p, label.
  - rewrite Hoff by done. done.
Qed.

(** X7. Selection and customization do not interfere: a toggle, a
    pointer-down and a pointer-miss leave colours, textures and mappings as
    they are, and a channel message leaves the selection and the interaction
    flag as they are. *)
Theorem step_selection_customization_apart st e :
  match e with
  | HostMessage _ =>
      selectedPart (step st e) = selectedPart st ∧
      interactive (step st e) = interactive st
  | _ =>
      colors (step st e) = colors st ∧ textures (step st e) = textures st ∧
      mappings (step st e) = mappings st
  end.
Proof.
  destruct e as [|hit| |msg]; simpl.
  - unfold toggleInteractive. by destruct (interactive st).
  - unfold onPointerDown. by destruct (interactive st).
  - unfold onPointerMissed. by destruct (interactive st).
  - apply handler_selection.
Qed.

(** ** Flat colours *)

Lemma hex_color_truthy c :
  hex_color c = true → truthy_str (Some c) = Some c.
Proof. intros Hc. apply truthy_str_Some. split; [done|]. by intros ->. Qed.

Lemma shown_shows_color st name w o c :
  shown (rendered st name) w o →
  truthy_str (mjoin (textures st !! name)) = None →
  colors st !! name = Some c → hex_color c = true →
  shows_color w o c.
Proof.
  intros (mesh & Hmesh & _ & Hshow) Hurl Hc Hhex. exists mesh.
  split; [done|].
  intros m Hm. destruct (Hshow m Hm) as (mat & Hmat & Htex).
  unfold rendered in Htex. rewrite Hurl in Htex. exists mat.
  destruct (mat_map mat) as [t|] eqn:Hmap.
  - by destruct Htex as (tex & _ & _ & _ & _ & ? & _).
  - destruct Htex as (? & ? & _ & _ & Hcol). auto.
Qed.

(** What a finished pass shows on the mesh of a part without a texture. *)
Lemma reconcile_shown_color st aniso sc w w' name o obj c :
  world_ok w → alias_free sc (objs w) = true →
  reconcile st aniso sc w = Some w' → name ∈ PART_NAMES →
  lookup_node sc (objs w) name = Some o → objs w !! o = Some obj →
  isMesh obj = true →
  truthy_str (mjoin (textures st !! name)) = None →
  colors st !! name = Some c → hex_color c = true → shows_color w' o c.
Proof.
  intros Hw Hfree Hrun Hname Hlook Ho Hmesh Hurl Hc Hhex.
  apply (shown_shows_color st name); [|done..].
  by apply (reconcile_shown st aniso sc w w' name o obj).
Qed.

(** X8. A pass gives every part without a texture its own colour, when
    that colour is a style in hex notation ([#] and three or six hex
    digits, which [Color.set] accepts): every material of the part's mesh
    has no [map], the tint [colors[part]] and matte parameters, also when
    several meshes shared one material when the asset was loaded. *)
Theorem reconcile_shows_colors st aniso sc w :
  state_ok st = true → world_okb w = true →
  alias_free sc (objs w) = true →
  ∃ w', reconcile st aniso sc w = Some w' ∧
    ∀ name o obj c, name ∈ PART_NAMES →
      lookup_node sc (objs w) name = Some o → objs w !! o = Some obj →
      isMesh obj = true →
      truthy_str (mjoin (textures st !! name)) = None →
      colors st !! name = Some c → hex_color c = true →
      shows_color w' o c.
Proof.
  intros Hst Hw Hfree. apply world_okb_sound in Hw.
  destruct (reconcile_total st aniso sc w Hst Hw) as (w' & Hrun & _).
  exists w'. split; [done|].
  intros name o obj c Hname Hlook Ho Hmesh Hurl Hc Hhex.
  by apply (reconcile_shown_color st aniso sc w w' name o obj c).
Qed.

Lemma reconcile_shows_colors_witness :
  let st := handler {| part := "logo"; color := Some "#0000ff";
                       mapping := None; image := None |}
              (handler {| part := "midsole"; color := Some "#ff0000";
                          mapping := None; image := None |} initialState) in
  ∃ w', reconcile st 16%float example_scene example_world = Some w' ∧
    shows_color w' 1 "#ff0000" ∧ shows_color w' 2 "#0000ff".
Proof.
  intros st.
  destruct (reconcile_shows_colors st 16%float example_scene example_world)
    as (w' & Hrun & Hall); [reflexivity..|].
  exists w'. split; [exact Hrun|].
  split; [eapply (Hall "midsole")|eapply (Hall "logo")];
    first [reflexivity | apply includes_elem_of; reflexivity].
Defined.

(** X9. An image followed by a colour in hex notation for the same part:
    the colour message clears the texture reference, and a pass then shows
    the colour on the part's mesh, with no [map]. *)
Theorem color_after_image_shows_color st p url c :
  includes PART_NAMES p = true → hex_color c = true →
  let st1 := handler {| part := p; color := None; mapping := None;
                        image := Some url |} st in
  let st2 := handler {| part := p; color := Some c; mapping := None;
                        image := None |} st1 in
  textures st2 !! p = Some None ∧ colors st2 !! p = Some c ∧
  ∀ aniso sc w o obj,
    state_ok st = true → world_okb w = true →
    alias_free sc (objs w) = true →
    lookup_node sc (objs w) p = Some o → objs w !! o = Some obj →
    isMesh obj = true →
    ∃ w', reconcile st2 aniso sc w = Some w' ∧ shows_color w' o c.
Proof.
  intros Hp Hc st1 st2.
  pose proof (hex_color_truthy c Hc) as Htc.
  destruct (handler_known {| part := p; color := Some c; mapping := None;
                             image := None |} st1 Hp) as (Hcol & Htex & Hmap).
  fold st2 in Hcol, Htex, Hmap. cbn [part color mapping image] in *.
  rewrite Htc in Hcol, Htex. simpl in Htex.
  assert (textures st2 !! p = Some None) as Ht
    by (rewrite Htex; apply lookup_insert_eq).
  assert (colors st2 !! p = Some c) as Hc2
    by (rewrite Hcol; apply lookup_insert_eq).
  do 2 (split; [done|]).
  intros aniso sc w o obj Hst Hw Hfree Hlook Ho Hmesh.
  assert (state_ok st2 = true) as Hok.
  { rewrite state_ok_spec in Hst |- *. intros q Hq. rewrite Hmap.
    apply handler_mappings_dom. by apply Hst. }
  apply world_okb_sound in Hw.
  destruct (reconcile_total st2 aniso sc w Hok Hw) as (w' & Hrun & _).
  exists w'. split; [done|].
  apply (reconcile_shown_color st2 aniso sc w w' p o obj c); try done.
  - by apply includes_elem_of.
  - by rewrite Ht.
Qed.

Lemma color_after_image_shows_color_witness :
  let st1 := handler {| part := "midsole"; color := None; mapping := None;
                        image := Some "blob:1" |} initialState in
  let st2 := handler {| part := "midsole"; color := Some "#ff0000";
                        mapping := None; image := None |} st1 in
  textures st2 !! "midsole" = Some None ∧
  colors st2 !! "midsole" = Some "#ff0000" ∧
  ∃ w', reconcile st2 16%float example_scene example_world = Some w' ∧
    shows_color w' 1 "#ff0000".
Proof.
  destruct (color_after_image_shows_color initialState "midsole" "blob:1"
              "#ff0000") as (H1 & H2 & H3); [reflexivity..|].
  split; [exact H1|]. split; [exact H2|].
  eapply (H3 16%float example_scene example_world 1); reflexivity.
Defined.

(** ** Material isolation *)

Lemma passes_cons st sts aniso sc w :
  passes (st :: sts) aniso sc w
  = reconcile st aniso sc w ≫= passes sts aniso sc.
Proof. unfold passes. simpl. by destruct (reconcile st aniso sc w). Qed.

Lemma forallb_state_ok sts :
  forallb state_ok sts = true → Forall (λ st, state_ok st = true) sts.
Proof.
  rewrite forallb_forall, Forall_forall. intros H st Hst.
  by apply H, list_elem_of_In.
Qed.

(** X10. After a session of at least one pass, the materials of a part's
    mesh belong to that mesh alone: no other node refers to any of them,
    whatever the nodes shared when the asset was loaded. *)
Theorem passes_isolate_part_materials st sts aniso sc w :
  state_ok st = true → forallb state_ok sts = true → world_okb w = true →
  ∃ wn, passes (st :: sts) aniso sc w = Some wn ∧
    ∀ name i j oi oj m, name ∈ PART_NAMES →
      lookup_node sc (objs w) name = Some i →
      objs wn !! i = Some oi → isMesh oi = true →
      objs wn !! j = Some oj → i ≠ j →
      m ∈ as_array (material oi) → m ∉ as_array (material oj).
Proof.
  intros Hst Hsts Hw. apply world_okb_sound in Hw.
  destruct (reconcile_total st aniso sc w Hst Hw) as (w1 & Hrun1 & Hw1).
  destruct (passes_total sts aniso sc w1 (forallb_state_ok _ Hsts) Hw1)
    as (wn & Hrunn & Hwn).
  exists wn. rewrite passes_cons, Hrun1. split; [done|].
  intros name i j oi oj m Hname Hlook Hi Hmesh Hj Hij Hmi.
  pose proof (reconcile_parts_cloned _ _ _ _ _ Hrun1) as Hpc1.
  destruct (passes_when_cloned sts aniso sc w1 wn Hpc1 Hrunn) as [Hpcn _].
  assert (extends w wn) as Hext.
  { eapply extends_trans; [by eapply reconcile_extends|].
    by eapply passes_extends. }
  assert (cloned oi = true) as Hcl.
  { apply (Hpcn name i oi); try done.
    by rewrite (extends_lookup_node sc w wn). }
  destruct Hwn as [_ Hown _]. by apply (Hown i j oi oj m).
Qed.

Lemma passes_isolate_part_materials_witness :
  ∃ wn, passes [initialState; onPointerDown "logo" initialState] 16%float
          example_scene example_world = Some wn ∧
    ∀ name i j oi oj m, name ∈ PART_NAMES →
      lookup_node example_scene (objs example_world) name = Some i →
      objs wn !! i = Some oi → isMesh oi = true →
      objs wn !! j = Some oj → i ≠ j →
      m ∈ as_array (material oi) → m ∉ as_array (material oj).
Proof.
  apply (passes_isolate_part_materials initialState
           [onPointerDown "logo" initialState] 16%float example_scene
           example_world); reflexivity.
Defined.

(** One iteration keeps the materials that existed before the session. *)
Lemma reconcile_part_keeps_originals st aniso sc n q u u' :
  n ≤ length (mats u) →
  (∀ o obj m, objs u !! o = Some obj → cloned obj = true →
     m ∈ as_array (material obj) → n ≤ m) →
  reconcile_part st aniso sc q u = Some u' →
  n ≤ length (mats u') ∧
  (∀ o obj m, objs u' !! o = Some obj → cloned obj = true →
     m ∈ as_array (material obj) → n ≤ m) ∧
  (∀ m, m < n → mats u' !! m = mats u !! m).
Proof.
  intros Hn Hnew Hstep.
  destruct (reconcile_part_inv _ _ _ _ _ _ Hstep)
    as [[-> _]|(o & obj & _ & _ & _ & Hlook & Ho & Hm & _)]; [done|].
  destruct (reconcile_part_mesh _ _ _ _ _ _ _ _ Hlook Ho Hm Hstep)
    as (obj' & k & Hobjs & _ & _ & Hlen & Hcase & Hkeep & _).
  assert (∀ m, m ∈ as_array (material obj') → n ≤ m) as Hids.
  { intros m Hin. destruct (cloned obj) eqn:Hcl.
    - destruct Hcase as [Hmat _]. rewrite Hmat in Hin. by eapply Hnew.
    - destruct Hcase as [Hseq _]. rewrite Hseq in Hin.
      apply elem_of_seq in Hin. lia. }
  split; [lia|]. split.
  - intros j objj m Hj Hcl Hin. rewrite Hobjs in Hj.
    destruct (decide (o = j)) as [->|Hne].
    + rewrite list_lookup_insert_eq in Hj by by eapply lookup_lt_Some.
      simplify_eq. by apply Hids.
    + rewrite list_lookup_insert_ne in Hj by done. by eapply Hnew.
  - intros m Hm'. apply Hkeep; [lia|]. intros Hin. apply Hids in Hin. lia.
Qed.

(** X11. A session on an asset as loaded (no node marked) never writes to a
    material or a texture of the asset: every material and every texture
    that existed before the first pass is unchanged after the last. *)
Theorem passes_keep_loaded_asset sts aniso sc w :
  unmarked w = true → forallb state_ok sts = true → world_okb w = true →
  ∃ wn, passes sts aniso sc w = Some wn ∧
    (∀ m mat, mats w !! m = Some mat → mats wn !! m = Some mat) ∧
    (∀ t tex, texs w !! t = Some tex → texs wn !! t = Some tex).
Proof.
  intros Hun Hsts Hw. apply world_okb_sound in Hw.
  destruct (passes_total sts aniso sc w (forallb_state_ok _ Hsts) Hw)
    as (wn & Hrun & _).
  exists wn. split; [done|]. split.
  - pose (I := λ u : World,
      length (mats w) ≤ length (mats u) ∧
      (∀ o obj m, objs u !! o = Some obj → cloned obj = true →
         m ∈ as_array (material obj) → length (mats w) ≤ m) ∧
      (∀ m, m < length (mats w) → mats u !! m = mats w !! m)).
    assert (I wn) as (_ & _ & Hkeep).
    { apply (forEach_invariant (λ st, reconcile st aniso sc) I sts w wn);
        [| |exact Hrun].
      - intros st u u' _ Hu.
        apply (forEach_invariant (reconcile_part st aniso sc) I); [|done].
        intros q v v' _ (Hn & Hnew & Hold) Hstep.
        destruct (reconcile_part_keeps_originals st aniso sc _ q v v' Hn Hnew
                    Hstep) as (? & ? & Hsame).
        do 2 (split; [done|]). intros m Hm. rewrite Hsame by done. auto.
      - split; [done|]. split; [|done]. intros o obj m Ho Hcl.
        unfold unmarked in Hun. rewrite forallb_forall in Hun.
        apply list_elem_of_lookup_2, list_elem_of_In, Hun in Ho.
        rewrite Hcl in Ho. done. }
    intros m mat Hm. rewrite Hkeep; [done|by eapply lookup_lt_Some].
  - destruct (passes_extends _ _ _ _ _ Hrun) as (_ & _ & [extra ->] & _).
    intros t tex Ht. by apply lookup_app_l_Some.
Qed.

Lemma passes_keep_loaded_asset_witness :
  ∃ wn, passes [initialState;
                handler {| part := "midsole"; color := Some "#ff0000";
                           mapping := None; image := Some "blob:1" |}
                  initialState] 16%float example_scene example_world
        = Some wn ∧
    (∀ m mat, mats example_world !! m = Some mat →
       mats wn !! m = Some mat) ∧
    (∀ t tex, texs example_world !! t = Some tex → texs wn !! t = Some tex).
Proof.
  apply (passes_keep_loaded_asset _ 16%float example_scene example_world);
    reflexivity.
Defined.

(** ** Nodes and parts outside the pass *)

(** X12. A pass rewrites only the nodes that part names resolve to: every
    other node of the scene is left exactly as it was. *)
Theorem reconcile_leaves_other_nodes st aniso sc w :
  state_ok st = true → world_okb w = true →
  ∃ w', reconcile st aniso sc w = Some w' ∧
    ∀ o, unresolved sc (objs w) o = true → objs w' !! o = objs w !! o.
Proof.
  intros Hst Hw. apply world_okb_sound in Hw.
  destruct (reconcile_total st aniso sc w Hst Hw) as (w' & Hrun & _).
  exists w'. split; [done|]. intros o Ho.
  unfold unresolved in Ho. rewrite forallb_forall in Ho.
  assert (extends w w' ∧ objs w' !! o = objs w !! o) as [_ ?]; [|done].
  apply (forEach_invariant (reconcile_part st aniso sc)
           (λ u, extends w u ∧ objs u !! o = objs w !! o) PART_NAMES w w');
    [|split; [apply extends_refl|done]|exact Hrun].
  intros q u u' Hq [Hext Hsame] Hstep.
  split; [eapply extends_trans; [done|]; by eapply reconcile_part_extends|].
  destruct (reconcile_part_inv _ _ _ _ _ _ Hstep)
    as [[-> _]|(o' & obj & _ & _ & _ & Hlook & Ho' & Hm & _)]; [done|].
  destruct (reconcile_part_mesh _ _ _ _ _ _ _ _ Hlook Ho' Hm Hstep)
    as (obj' & k & Hobjs & _).
  rewrite (extends_lookup_node sc w u) in Hlook by done.
  apply list_elem_of_In, Ho, negb_true_iff, bool_decide_eq_false in Hq.
  rewrite Hobjs, list_lookup_insert_ne by congruence. done.
Qed.

Lemma reconcile_leaves_other_nodes_witness :
  ∃ w', reconcile (onPointerDown "midsole" initialState) 16%float
          example_scene example_world = Some w' ∧
    ∀ o, unresolved example_scene (objs example_world) o = true →
      objs w' !! o = objs example_world !! o.
Proof. apply reconcile_leaves_other_nodes; reflexivity. Defined.

(** X13. Parts that the asset lacks are tolerated: when no part name
    resolves to a mesh, a pass returns the store unchanged, for every state
    (also one without mapping records) and every store. *)
Theorem reconcile_without_parts st aniso sc w :
  no_part_mesh sc (objs w) = true → reconcile st aniso sc w = Some w.
Proof.
  unfold no_part_mesh, reconcile. rewrite forallb_forall. intros Hnone.
  assert (∀ names, (∀ q, q ∈ names → q ∈ PART_NAMES) →
            forEach (reconcile_part st aniso sc) names w = Some w) as Hall.
  { induction names as [|q names IH]; intros Hsub; simpl; [done|].
    assert (reconcile_part st aniso sc q w = Some w) as ->.
    { assert (q ∈ PART_NAMES) as Hq by (apply Hsub; left).
      apply list_elem_of_In, Hnone in Hq. unfold reconcile_part.
      destruct (lookup_node sc (objs w) q) as [o|]; [|done].
      destruct (objs w !! o) as [obj|]; [|done]. by rewrite Hq. }
    apply IH. intros q' Hq'. apply Hsub. by right. }
  by apply Hall.
Qed.

Lemma reconcile_without_parts_witness :
  reconcile initialState 16%float
    {| nodes := ∅; scene := Node3D 0 [Node3D 1 []] |}
    {| objs := [example_node "Scene" false 0 (ManyMaterials []);
                example_node "heel" true 1 (OneMaterial 0)];
       mats := [example_material]; texs := []; lines := [] |}
  = Some {| objs := [example_node "Scene" false 0 (ManyMaterials []);
                     example_node "heel" true 1 (OneMaterial 0)];
            mats := [example_material]; texs := []; lines := [] |}.
Proof. apply reconcile_without_parts. reflexivity. Defined.

(** ** Deselecting *)

Lemma reconcile_part_no_new_outline st aniso sc q u u' :
  selected st q = false →
  reconcile_part st aniso sc q u = Some u' →
  length (lines u') = length (lines u).
Proof.
  intros Hsel Hstep.
  destruct (reconcile_part_inv _ _ _ _ _ _ Hstep)
    as [[-> _]|(o & obj & _ & _ & _ & Hlook & Ho & Hm & _)]; [done|].
  destruct (reconcile_part_mesh _ _ _ _ _ _ _ _ Hlook Ho Hm Hstep)
    as (obj' & k & _ & _ & _ & _ & _ & _ & _ & _ & -> & _).
  rewrite Hsel, app_nil_r. apply dispose_length.
Qed.

(** X14. After a pass with nothing selected or with interaction off, the
    mesh of no part carries an overlay, the outline a mesh had is disposed
    (geometry and material), and the pass creates no outline object. *)
Theorem reconcile_deselected st aniso sc w :
  state_ok st = true → world_okb w = true →
  interactive st = false ∨ selectedPart st = None →
  ∃ w', reconcile st aniso sc w = Some w' ∧
    length (lines w') = length (lines w) ∧
    ∀ name o obj, name ∈ PART_NAMES →
      lookup_node sc (objs w) name = Some o → objs w !! o = Some obj →
      isMesh obj = true →
      ∃ obj', objs w' !! o = Some obj' ∧
        outline obj' = None ∧ overlays obj' = [] ∧
        ∀ l, outline obj = Some l →
          ∃ ln, lines w' !! l = Some ln ∧
            geometry_disposed ln = true ∧ material_disposed ln = true.
Proof.
  intros Hst Hw Hoff. apply world_okb_sound in Hw.
  destruct (reconcile_total st aniso sc w Hst Hw) as (w' & Hrun & Hw').
  assert (∀ q, selected st q = false) as Hsel.
  { intros q. destruct (selected st q) eqn:Hq; [|done].
    apply selected_spec in Hq as [Hi Hs]. destruct Hoff; congruence. }
  exists w'. split; [done|]. split.
  - apply (forEach_invariant (reconcile_part st aniso sc)
             (λ u, length (lines u) = length (lines w)) PART_NAMES w w');
      [|done|exact Hrun].
    intros q u u' _ Hu Hstep.
    rewrite (reconcile_part_no_new_outline st aniso sc q u u'); done.
  - intros name o obj Hname Hlook Ho Hmesh.
    destruct (reconcile_overlay_since st aniso sc w w' name o obj)
      as (obj' & Ho' & Hold & Hnew); try done.
    exists obj'. split; [done|].
    assert (outline obj' = None) as Hnone.
    { destruct (outline obj') as [l|] eqn:Hol; [|done].
      destruct (Hnew l eq_refl) as (_ & Hi & n & _ & Hs & _).
      destruct Hoff; congruence. }
    split; [done|]. split.
    + destruct Hw' as [_ _ HO]. destruct (HO o obj' Ho') as [-> _].
      by rewrite Hnone.
    + intros l Hl. by destruct (Hold l Hl).
Qed.

Lemma reconcile_deselected_witness :
  ∃ w', reconcile (onPointerMissed (onPointerDown "midsole" initialState))
          16%float example_scene example_selected_world = Some w' ∧
    length (lines w') = length (lines example_selected_world) ∧
    ∀ name o obj, name ∈ PART_NAMES →
      lookup_node example_scene (objs example_selected_world) name = Some o →
      objs example_selected_world !! o = Some obj →
      isMesh obj = true →
      ∃ obj', objs w' !! o = Some obj' ∧
        outline obj' = None ∧ overlays obj' = [] ∧
        ∀ l, outline obj = Some l →
          ∃ ln, lines w' !! l = Some ln ∧
            geometry_disposed ln = true ∧ material_disposed ln = true.
Proof.
  apply reconcile_deselected; [reflexivity|reflexivity|right; reflexivity].
Defined.

(** ** The highlight of the selected part *)

Lemma outlines_distinctb_sound w :
  outlines_distinctb w = true → outlines_distinct w.
Proof.
  unfold outlines_distinctb. rewrite forallb_forall.
  intros Hall i j oi oj l Hi Hj Hli Hlj.
  apply (elem_of_lookup_imap_2 pair), list_elem_of_In in Hi, Hj.
  specialize (Hall _ Hi). rewrite forallb_forall in Hall.
  specialize (Hall _ Hj). simpl in Hall. rewrite Hli, Hlj in Hall.
  rewrite Nat.eqb_refl, orb_false_r in Hall. by apply Nat.eqb_eq.
Qed.

Lemma reconcile_part_outlines_distinct st aniso sc q u u' :
  world_ok u → outlines_distinct u →
  reconcile_part st aniso sc q u = Some u' → outlines_distinct u'.
Proof.
  intros [_ _ HO] HD Hstep.
  destruct (reconcile_part_inv _ _ _ _ _ _ Hstep)
    as [[-> _]|(o & obj & _ & _ & _ & Hlook & Ho & Hm & _)]; [done|].
  destruct (reconcile_part_mesh _ _ _ _ _ _ _ _ Hlook Ho Hm Hstep)
    as (obj' & k & Hobjs & _ & _ & _ & _ & _ & _ & _ & _ & Hol & _).
  pose proof (lookup_lt_Some _ _ _ Ho) as Hlt.
  assert (∀ j oj l, j ≠ o → objs u !! j = Some oj →
            outline oj = Some l → outline obj' ≠ Some l) as Hfresh.
  { intros j oj l Hj Hoj Hl. rewrite Hol.
    destruct (selected st q); [|done]. intros [= <-].
    destruct (HO j oj Hoj) as [_ Hv]. specialize (Hv _ Hl). lia. }
  intros i j oi oj l Hi Hj Hli Hlj. rewrite Hobjs in Hi, Hj.
  destruct (decide (i = o)) as [->|Hoi], (decide (j = o)) as [->|Hoj].
  - done.
  - rewrite list_lookup_insert_eq in Hi by done.
    rewrite list_lookup_insert_ne in Hj by done. simplify_eq.
    exfalso. by eapply (Hfresh j oj l).
  - rewrite list_lookup_insert_ne in Hi by done.
    rewrite list_lookup_insert_eq in Hj by done. simplify_eq.
    exfalso. by eapply (Hfresh i oi l).
  - rewrite list_lookup_insert_ne in Hi, Hj by done.
    by apply (HD i j oi oj l).
Qed.

(** X15. With interaction on and a part selected, a pass leaves on that
    part's mesh exactly one overlay, the outline object created in this
    pass from the mesh's geometry (threshold angle 15, colour 0xffff00,
    render order 999, no depth test, not disposed), and leaves the mesh of
    every other part without an overlay. *)
Theorem reconcile_highlights_selected st aniso sc w name o obj :
  state_ok st = true → world_okb w = true → outlines_distinctb w = true →
  alias_free sc (objs w) = true →
  interactive st = true → selectedPart st = Some name →
  includes PART_NAMES name = true →
  lookup_node sc (objs w) name = Some o → objs w !! o = Some obj →
  isMesh obj = true →
  ∃ w' obj' l,
    reconcile st aniso sc w = Some w' ∧ objs w' !! o = Some obj' ∧
    outline obj' = Some l ∧ overlays obj' = [l] ∧ length (lines w) ≤ l ∧
    lines w' !! l = Some (new_outline obj) ∧
    ∀ q o2 obj2, q ∈ PART_NAMES →
      lookup_node sc (objs w) q = Some o2 → objs w !! o2 = Some obj2 →
      isMesh obj2 = true → o2 ≠ o →
      ∃ obj2', objs w' !! o2 = Some obj2' ∧ overlays obj2' = [].
Proof.
  intros Hst Hw Hdist Hfree Hi Hsel Hname Hlook Ho Hmesh.
  apply world_okb_sound in Hw. apply outlines_distinctb_sound in Hdist.
  apply includes_elem_of in Hname.
  destruct (reconcile_total st aniso sc w Hst Hw) as (w' & Hrun & Hw').
  pose (R := λ u : World,
    ∃ obj' l, objs u !! o = Some obj' ∧ outline obj' = Some l ∧
      overlays obj' = [l] ∧ length (lines w) ≤ l ∧
      lines u !! l = Some (new_outline obj)).
  assert (R w') as (obj' & l & Ho' & Hol & Hkids & Hl & Hline).
  { apply (forEach_establish (reconcile_part st aniso sc)
             (λ u, (extends w u ∧ world_ok u) ∧ outlines_distinct u) R
             (λ q, lookup_node sc (objs w) q = Some o) PART_NAMES w w');
      try done.
    - intros q. destruct (decide (lookup_node sc (objs w) q = Some o)); auto.
    - intros q u u' _ [[Hext Hu] HD] Hstep. split; [split|].
      + eapply extends_trans; [done|]. by eapply reconcile_part_extends.
      + by eapply reconcile_part_world_ok.
      + by eapply reconcile_part_outlines_distinct.
    - intros q u u' Hq Hhit [[Hext Hu] HD] Hstep.
      assert (q = name) as -> by by eapply alias_free_spec.
      destruct (extends_isMesh w u o obj Hext Ho) as (obj_u & Hou & Hs).
      rewrite <- (extends_lookup_node sc w u) in Hhit by done.
      destruct (reconcile_part_mesh st aniso sc name u u' o obj_u)
        as (obj' & k & Hobjs & _ & _ & _ & _ & _ & _ & _ & Hlines & Hol
            & Hkids); try done.
      { rewrite (static_isMesh _ _ Hs). done. }
      assert (selected st name = true) as Hs' by by apply selected_spec.
      rewrite Hs' in Hlines, Hol, Hkids.
      exists obj', (length (lines u)). split.
      { rewrite Hobjs. apply list_lookup_insert_eq. by eapply lookup_lt_Some. }
      split; [done|]. split.
      { rewrite Hkids. destruct Hu as [_ _ HO].
        destruct (HO o obj_u Hou) as [-> _].
        destruct (outline obj_u); simpl; [|done].
        by rewrite filter_cons, decide_False by naive_solver. }
      split; [by destruct Hext as (_ & _ & _ & ? & _)|].
      rewrite Hlines, (new_outline_static obj_u obj Hs).
      rewrite <- (dispose_length (lines u) (outline obj_u)).
      by apply list_lookup_middle.
    - intros q u u' _ Hmiss [[Hext Hu] HD] (obj' & l & Ho' & Hol & Hkids & Hl
                                              & Hline) Hstep.
      rewrite <- (extends_lookup_node sc w u) in Hmiss by done.
      destruct (reconcile_part_inv _ _ _ _ _ _ Hstep)
        as [[-> _]|(o2 & obj2 & _ & _ & _ & Hlook2 & Ho2 & Hm2 & _)];
        [by exists obj', l|].
      destruct (reconcile_part_mesh _ _ _ _ _ _ _ _ Hlook2 Ho2 Hm2 Hstep)
        as (obj2' & k & Hobjs & _ & _ & _ & _ & _ & _ & _ & Hlines & _).
      assert (o2 ≠ o) as Hne by congruence.
      exists obj', l. split; [by rewrite Hobjs, list_lookup_insert_ne|].
      do 3 (split; [done|]). rewrite Hlines. apply lookup_app_l_Some.
      destruct (outline obj2) as [l2|] eqn:Hol2; simpl; [|done].
      rewrite list_lookup_alter_ne; [done|]. intros ->.
      by destruct Hne, (HD o2 o obj2 obj' l).
    - eauto.
    - split; [split; [apply extends_refl|done]|done]. }
  exists w', obj', l. do 6 (split; [done|]).
  intros q o2 obj2 Hq Hlook2 Ho2 Hmesh2 Hne.
  destruct (reconcile_overlay_since st aniso sc w w' q o2 obj2)
    as (obj2' & Ho2' & _ & Hnew); try done.
  exists obj2'. split; [done|].
  destruct Hw' as [_ _ HO]. destruct (HO o2 obj2' Ho2') as [-> _].
  destruct (outline obj2') as [l2|] eqn:Hol2; [|done].
  destruct (Hnew l2 eq_refl) as (_ & _ & n & Hn & Hsn & Hlookn).
  assert (n = name) as -> by congruence. congruence.
Qed.

Lemma reconcile_highlights_selected_witness :
  ∃ w' obj' l,
    reconcile (onPointerDown "logo" initialState) 16%float example_scene
      example_selected_world = Some w' ∧
    objs w' !! 2 = Some obj' ∧
    outline obj' = Some l ∧ overlays obj' = [l] ∧
    length (lines example_selected_world) ≤ l ∧
    lines w' !! l
    = Some {| edges_of := 2; thresholdAngle := 15; line_color := 0xffff00;
              renderOrder := 999; depthTest := false;
              geometry_disposed := false; material_disposed := false |} ∧
    ∀ q o2 obj2, q ∈ PART_NAMES →
      lookup_node example_scene (objs example_selected_world) q = Some o2 →
      objs example_selected_world !! o2 = Some obj2 →
      isMesh obj2 = true → o2 ≠ 2 →
      ∃ obj2', objs w' !! o2 = Some obj2' ∧ overlays obj2' = [].
Proof.
  eapply (reconcile_highlights_selected (onPointerDown "logo" initialState)
            16%float example_scene example_selected_world "logo" 2
            (mark_cloned (OneMaterial 2)
               (example_node "logo" true 2 (OneMaterial 0))));
    reflexivity.
Defined.

(** ** Textures are loaded anew *)

Lemma materials_loop_fresh_textures st aniso name ids w w2 m :
  forEach (reconcile_material st aniso name) ids w = Some w2 → m ∈ ids →
  ∃ mat, mats w2 !! m = Some mat ∧
    ∀ t, mat_map mat = Some t →
      length (texs w) ≤ t ∧ t < length (texs w2).
Proof.
  intros Hrun Hm.
  apply (forEach_establish (reconcile_material st aniso name)
           (λ u, length (texs w) ≤ length (texs u))
           (λ u, ∃ mat, mats u !! m = Some mat ∧
              ∀ t, mat_map mat = Some t →
                length (texs w) ≤ t ∧ t < length (texs u))
           (λ x, x = m) ids w w2); try done.
  - intros x. destruct (decide (x = m)); auto.
  - intros x u u' _ Hu Hstep.
    apply reconcile_material_spec in Hstep
      as (_ & _ & mat0 & mat' & _ & _ & _ & _ & _ & _ & Htex).
    destruct (truthy_str _).
    + destruct Htex as (mp & _ & -> & _). rewrite length_app. lia.
    + destruct Htex as (-> & _). done.
  - intros x u u' _ -> Hu Hstep.
    apply reconcile_material_spec in Hstep
      as (_ & _ & mat0 & mat' & Hm0 & Hmats & _ & _ & _ & _ & Htex).
    exists mat'. split.
    { rewrite Hmats. apply list_lookup_insert_eq. by eapply lookup_lt_Some. }
    intros t Ht. destruct (truthy_str _).
    + destruct Htex as (mp & _ & -> & Hmap & _). rewrite length_app. simpl.
      assert (t = length (texs u)) as -> by congruence. lia.
    + destruct Htex as (_ & Hmap & _). congruence.
  - intros x u u' _ Hne Hu (mat & Hmat & Hfresh) Hstep.
    apply reconcile_material_spec in Hstep
      as (_ & _ & mat0 & mat' & Hm0 & Hmats & _ & _ & _ & _ & Htex).
    exists mat. split; [by rewrite Hmats, list_lookup_insert_ne|].
    intros t Ht. destruct (Hfresh t Ht) as [? ?]. split; [done|].
    destruct (truthy_str _).
    + destruct Htex as (mp & _ & -> & _). rewrite length_app. lia.
    + by destruct Htex as (-> & _).
  - eauto.
Qed.

(** X16. After a pass, a [map] on a material of a part's mesh is a texture
    object that this pass created: no material of a part is left pointing at
    a texture of an earlier pass. *)
Theorem reconcile_loads_textures_anew st aniso sc w name o obj :
  state_ok st = true → world_okb w = true →
  includes PART_NAMES name = true →
  lookup_node sc (objs w) name = Some o → objs w !! o = Some obj →
  isMesh obj = true →
  ∃ w' mesh, reconcile st aniso sc w = Some w' ∧
    objs w' !! o = Some mesh ∧
    ∀ m, m ∈ as_array (material mesh) →
      ∃ mat, mats w' !! m = Some mat ∧
        ∀ t, mat_map mat = Some t →
          length (texs w) ≤ t ∧ t < length (texs w').
Proof.
  intros Hst Hw Hname Hlook Ho Hmesh. apply world_okb_sound in Hw.
  apply includes_elem_of in Hname.
  destruct (reconcile_total st aniso sc w Hst Hw) as (w' & Hrun & _).
  pose (P := λ (mat : Material) (_ : option Texture),
          ∀ t, mat_map mat = Some t → length (texs w) ≤ t).
  assert (shown P w' o) as (mesh & Hmesh' & _ & Hshow).
  { apply (forEach_establish (reconcile_part st aniso sc)
             (λ u, world_ok u ∧ extends w u) (λ u, shown P u o)
             (λ q, lookup_node sc (objs w) q = Some o) PART_NAMES w w');
      try done.
    - intros q. destruct (decide (lookup_node sc (objs w) q = Some o)); auto.
    - intros q u u' _ [Hu Hext] Hstep. split.
      + by eapply reconcile_part_world_ok.
      + eapply extends_trans; [done|]. by eapply reconcile_part_extends.
    - intros q u u' _ Hhit [Hu Hext] Hstep.
      rewrite <- (extends_lookup_node sc w u) in Hhit by done.
      destruct (extends_isMesh w u o obj Hext Ho) as (obj_u & Hou & Hs).
      apply static_isMesh in Hs.
      destruct (reconcile_part_inv _ _ _ _ _ _ Hstep)
        as [[_ Hskip]|(o' & obj0 & w1 & mesh & w2 & Hlook' & Ho' & _ & Hclone
                       & Hmesh1 & Hloop & ->)].
      { specialize (Hskip o obj_u Hhit Hou). congruence. }
      assert (o' = o) as -> by congruence.
      destruct (clone_materials_spec o u w1 obj0 Ho' Hclone)
        as (mesh' & originals & Hobjs1 & _ & Htexs1 & _ & _ & _ & _ & Hcl1
            & _).
      assert (mesh' = mesh) as ->.
      { rewrite Hobjs1, list_lookup_insert_eq in Hmesh1
          by by eapply lookup_lt_Some. congruence. }
      destruct (materials_loop_frame st aniso q _ _ _ Hloop)
        as (Hobjs2 & _).
      assert (objs w2 !! o = Some mesh) as Hmesh2 by congruence.
      destruct (outline_step_spec st q o w2 mesh Hmesh2)
        as (obj' & Hobjs3 & Hmats3 & Htexs3 & _ & _ & Hmat3 & Hcl3 & _).
      exists obj'. split.
      { rewrite Hobjs3. apply list_lookup_insert_eq.
        by eapply lookup_lt_Some. }
      split; [congruence|]. intros m Hm. rewrite Hmat3 in Hm.
      destruct (materials_loop_fresh_textures st aniso q _ _ _ m Hloop Hm)
        as (mat & Hmat & Hfresh).
      exists mat. rewrite Hmats3, Htexs3. split; [done|].
      assert (length (texs w) ≤ length (texs w1)).
      { rewrite Htexs1. destruct Hext as (_ & _ & [extra ->] & _).
        rewrite length_app. lia. }
      destruct (mat_map mat) as [t|] eqn:Hmap.
      + destruct (Hfresh t eq_refl) as [? Hlt].
        destruct (lookup_lt_is_Some_2 _ _ Hlt) as [tex Htex].
        exists tex. split; [done|]. intros t' Ht'.
        assert (t' = t) as -> by congruence. lia.
      + intros t' Ht'. congruence.
    - intros q u u' _ Hmiss [Hu Hext] Hshown Hstep.
      eapply reconcile_part_frame; [exact Hu|exact Hshown| |exact Hstep].
      by rewrite (extends_lookup_node sc w u).
    - eauto.
    - split; [done|apply extends_refl]. }
  exists w', mesh. do 2 (split; [done|]). intros m Hm.
  destruct (Hshow m Hm) as (mat & Hmat & Htex). exists mat. split; [done|].
  intros t Ht. rewrite Ht in Htex. destruct Htex as (tex & Htex & HP).
  split; [by apply HP|by eapply lookup_lt_Some].
Qed.

Lemma reconcile_loads_textures_anew_witness :
  let st := handler {| part := "midsole"; color := None; mapping := None;
                       image := Some "a.png" |} initialState in
  let wA := default example_world
              (reconcile st 16%float example_scene example_world) in
  ∃ w' mesh, reconcile st 16%float example_scene wA = Some w' ∧
    objs w' !! 1 = Some mesh ∧
    ∀ m, m ∈ as_array (material mesh) →
      ∃ mat, mats w' !! m = Some mat ∧
        ∀ t, mat_map mat = Some t →
          length (texs wA) ≤ t ∧ t < length (texs w').
Proof.
  intros st wA.
  eapply (reconcile_loads_textures_anew st 16%float example_scene wA
            "midsole" 1); reflexivity.
Defined.

(** ** The page with the crop dialog *)

Lemma forEach_ext {A S : Type} (f g : A → S → option S) xs s :
  (∀ x t, f x t = g x t) → forEach f xs s = forEach g xs s.
Proof.
  intros Hfg. revert s. induction xs as [|x xs IH]; intros s; simpl; [done|].
  rewrite Hfg. destruct (g x s); [apply IH|done].
Qed.

Lemma crop_reconcile_material_same st aniso name m w :
  WithCrop.reconcile_material st aniso name m w
  = reconcile_material st aniso name m w.
Proof.
  unfold WithCrop.reconcile_material, reconcile_material.
  destruct (mats w !! m) as [mat|]; [|done].
  destruct (truthy_str (mjoin (textures st !! name))) as [url|]; simpl.
  - destruct (mappings st !! name) as [mp|]; [|done]. do 2 f_equal.
    rewrite <- (Nat.add_0_r (length (texs w))).
    by rewrite alter_app_r.
  - by destruct (colors st !! name).
Qed.

Lemma crop_reconcile_same st aniso sc w :
  WithCrop.reconcile st aniso sc w = reconcile st aniso sc w.
Proof.
  unfold WithCrop.reconcile, reconcile. apply forEach_ext. intros q u.
  unfold WithCrop.reconcile_part, reconcile_part.
  destruct (lookup_node sc (objs u) q) as [o|]; [|done].
  destruct (objs u !! o) as [obj|]; [|done].
  destruct (isMesh obj); simpl; [|done].
  destruct (clone_materials o u) as [w1|]; simpl; [|done].
  destruct (objs w1 !! o) as [mesh|]; simpl; [|done].
  rewrite (forEach_ext (WithCrop.reconcile_material st aniso q)
             (reconcile_material st aniso q)); [done|].
  intros m v. apply crop_reconcile_material_same.
Qed.

(** X17. On a state with all its records and a consistent store, the
    effect of the page with the crop dialog and the effect of the page with
    channel mappings both run to their end and leave the same store:
    writing repeat and offset before or after the texture becomes the [map]
    makes no difference. Its listener is the other page's listener on the
    message without its mapping, so no channel message changes a mapping
    there. *)
Theorem crop_page_same_effect st aniso sc w msg :
  state_ok st = true → world_okb w = true →
  (∃ w', reconcile st aniso sc w = Some w' ∧
     WithCrop.reconcile st aniso sc w = Some w') ∧
  WithCrop.handler msg st
  = handler (only_image msg) (handler (only_color msg) st) ∧
  mappings (WithCrop.handler msg st) = mappings st.
Proof.
  intros Hst Hw. apply world_okb_sound in Hw. split; [|split].
  - destruct (reconcile_total st aniso sc w Hst Hw) as (w' & Hrun & _).
    exists w'. split; [done|]. by rewrite crop_reconcile_same.
  - unfold WithCrop.handler, handler.
    cbn [part color mapping image only_color only_image].
    destruct (includes PART_NAMES (part msg)); simpl; [|done].
    destruct (truthy_str (color msg)), (truthy_str (image msg)); done.
  - unfold WithCrop.handler.
    destruct (negb _), (truthy_str (color msg)), (truthy_str (image msg));
      done.
Qed.

Lemma crop_page_same_effect_witness :
  let msg := {| part := "midsole"; color := Some "#ff0000";
                mapping := Some example_mapping; image := Some "a.png" |} in
  let st := handler {| part := "upper"; color := None; mapping := None;
                       image := Some "b.png" |} initialState in
  (∃ w', reconcile st 16%float example_scene example_world = Some w' ∧
     WithCrop.reconcile st 16%float example_scene example_world = Some w') ∧
  WithCrop.handler msg st
  = handler (only_image msg) (handler (only_color msg) st) ∧
  mappings (WithCrop.handler msg st) = mappings st.
Proof.
  intros msg st.
  apply (crop_page_same_effect st 16%float example_scene example_world msg);
    reflexivity.
Defined.

(** X18. A crop that succeeds makes the blob's URL the texture of the
    selected part and of no other part, keeps colours, mappings and
    selection, and closes the dialog; the next pass of the effect shows
    that URL on the part's mesh. *)
Theorem applyCrop_shows_cropped_image b s src area sel blob :
  truthy_str (imageSrc s) = Some src → croppedAreaPixels s = Some area →
  selectedPart (page s) = Some sel → includes PART_NAMES sel = true →
  getCroppedImg b src area = inr blob → createObjectURL b blob ≠ "" →
  let s' := applyCrop b s in
  let url := createObjectURL b blob in
  (showCrop s' = false ∧ imageSrc s' = None) ∧
  (textures (page s') !! sel = Some (Some url) ∧
   ∀ q, q ≠ sel → textures (page s') !! q = textures (page s) !! q) ∧
  (colors (page s') = colors (page s) ∧
   mappings (page s') = mappings (page s) ∧
   selectedPart (page s') = selectedPart (page s) ∧
   interactive (page s') = interactive (page s)) ∧
  ∀ aniso sc w o obj mp,
    state_ok (page s) = true → world_okb w = true →
    alias_free sc (objs w) = true →
    lookup_node sc (objs w) sel = Some o → objs w !! o = Some obj →
    isMesh obj = true → mappings (page s) !! sel = Some mp →
    ∃ w', WithCrop.reconcile (page s') aniso sc w = Some w' ∧
      shows_image w' o url mp.
Proof.
  intros Hsrc Harea Hsel Hin Hcrop Hurl s' url.
  assert (page s' = setTextures <[sel := Some url]> (page s)) as Hpage.
  { unfold s', applyCrop. rewrite Hsrc, Harea, Hsel.
    apply includes_elem_of, part_names_labelled in Hin as [Hne _].
    assert (truthy_str (Some sel) = Some sel) as ->
      by by apply truthy_str_Some.
    rewrite Hcrop. done. }
  split; [done|]. rewrite Hpage. simpl.
  split; [split; [apply lookup_insert_eq|]|].
  { intros q Hq. by rewrite lookup_insert_ne. }
  split; [done|].
  intros aniso sc w o obj mp Hst Hw Hfree Hlook Ho Hmesh Hmp.
  rewrite crop_reconcile_same.
  destruct (reconcile_shows_image (setTextures <[sel := Some url]> (page s))
              aniso sc w sel o obj url mp) as (w' & Hrun & _ & _ & Hshow);
    try done.
  - by apply includes_elem_of.
  - simpl. rewrite lookup_insert_eq. by apply truthy_str_Some.
  - by exists w'.
Qed.

Lemma applyCrop_shows_cropped_image_witness :
  let s := {| page := onPointerDown "midsole" initialState;
              imageSrc := Some "photo.png"; showCrop := true;
              crop := (0%float, 0%float); zoom := 1%float;
              croppedAreaPixels :=
                Some {| crop_x := 50; crop_y := 50; crop_width := 100;
                        crop_height := 100 |} |} in
  let s' := applyCrop example_browser s in
  (showCrop s' = false ∧ imageSrc s' = None) ∧
  (textures (page s') !! "midsole" = Some (Some "blob:crop") ∧
   ∀ q, q ≠ "midsole" →
     textures (page s') !! q = textures (page s) !! q) ∧
  (colors (page s') = colors (page s) ∧
   mappings (page s') = mappings (page s) ∧
   selectedPart (page s') = selectedPart (page s) ∧
   interactive (page s') = interactive (page s)) ∧
  ∃ w', WithCrop.reconcile (page s') 16%float example_scene example_world
        = Some w' ∧
    shows_image w' 1 "blob:crop"
      {| offsetX := 0%float; offsetY := 0%float; scale := 1%float |}.
Proof.
  intros s s'.
  destruct (applyCrop_shows_cropped_image example_browser s "photo.png"
              {| crop_x := 50; crop_y := 50; crop_width := 100;
                 crop_height := 100 |} "midsole"
              {| blob_type := "image/png"; blob_width := 100;
                 blob_height := 100;
                 blob_content := canvas_drawn
                   (cropped_canvas
                      {| img_src := "photo.png"; naturalWidth := 400;
                         naturalHeight := 300 |}
                      {| crop_x := 50; crop_y := 50; crop_width := 100;
                         crop_height := 100 |}) |})
    as (H1 & H2 & H3 & H4); [reflexivity..|discriminate|].
  split; [exact H1|]. split; [exact H2|]. split; [exact H3|].
  eapply (H4 16%float example_scene example_world 1); reflexivity.
Defined.

(** ** A state without a mapping record *)

Lemma forEach_fails {A S : Type} (f : A → S → option S) (I : S → Prop)
  a xs s :
  (∀ x t t', I t → f x t = Some t' → I t') →
  (∀ t, I t → f a t = None) →
  a ∈ xs → I s → forEach f xs s = None.
Proof.
  intros Hkeep Hfail. revert s.
  induction xs as [|x xs IH]; intros s Ha Hs.
  - by apply elem_of_nil in Ha.
  - simpl. destruct (f x s) as [t|] eqn:Hx; [|done].
    apply elem_of_cons in Ha as [<-|Ha].
    + by rewrite Hfail in Hx.
    + apply IH; [done|]. by eapply Hkeep.
Qed.

(** The body of [PART_NAMES.forEach] keeps the name, the mesh flag, the
    geometry and the number of materials of every node. *)
Lemma reconcile_part_slot st aniso sc q w w' o obj :
  reconcile_part st aniso sc q w = Some w' → objs w !! o = Some obj →
  ∃ obj', objs w' !! o = Some obj' ∧ static_of obj' = static_of obj ∧
    length (as_array (material obj')) = length (as_array (material obj)).
Proof.
  intros Hrun Ho.
  destruct (reconcile_part_inv _ _ _ _ _ _ Hrun)
    as [[-> _]|(o' & obj0 & w1 & mesh & w2 & _ & Ho' & _ & Hclone & Hmesh
                & Hloop & ->)]; [by exists obj|].
  pose proof (lookup_lt_Some _ _ _ Ho') as Hlt.
  destruct (clone_materials_spec _ _ _ _ Ho' Hclone)
    as (mesh' & originals & Hobjs & _ & _ & _ & Hst & _ & _ & _ & Hcase).
  destruct (materials_loop_frame st aniso q _ _ _ Hloop) as (Hobjs2 & _).
  assert (mesh' = mesh) as ->.
  { rewrite Hobjs, list_lookup_insert_eq in Hmesh by done. congruence. }
  assert (objs w2 !! o' = Some mesh) as Hmesh2 by by rewrite Hobjs2.
  destruct (outline_step_spec st q o' w2 mesh Hmesh2)
    as (obj' & Hobjs' & _ & _ & _ & Hst' & Hmat' & _).
  rewrite Hobjs', Hobjs2, Hobjs, list_insert_insert_eq.
  destruct (decide (o' = o)) as [->|Hne].
  - exists obj'. rewrite list_lookup_insert_eq by done.
    assert (obj0 = obj) as -> by congruence.
    split; [done|]. split; [congruence|]. rewrite Hmat'.
    destruct (cloned obj); [by destruct Hcase as [-> _]|].
    destruct Hcase as (-> & <- & _). by rewrite length_seq.
  - exists obj. by rewrite list_lookup_insert_ne.
Qed.

(** X19. The effect reads [mappings[name]] without a guard: for a state
    in which a part with a texture has no mapping record, and an asset in
    which that part is a mesh with a material, the pass throws, whatever
    the other parts are. *)
Theorem reconcile_throws_without_mapping st aniso sc w name o obj url :
  includes PART_NAMES name = true →
  lookup_node sc (objs w) name = Some o → objs w !! o = Some obj →
  isMesh obj = true → as_array (material obj) ≠ [] →
  truthy_str (mjoin (textures st !! name)) = Some url →
  mappings st !! name = None →
  reconcile st aniso sc w = None.
Proof.
  intros Hname Hlook Ho Hmesh Hmats Hurl Hmp.
  pose (I := λ u : World,
    lookup_node sc (objs u) name = Some o ∧
    ∃ ob, objs u !! o = Some ob ∧ isMesh ob = true ∧
      as_array (material ob) ≠ []).
  apply (forEach_fails (reconcile_part st aniso sc) I name PART_NAMES w).
  - intros q t t' (Hl & ob & Hob & Hm & Hne) Hstep. split.
    + rewrite (extends_lookup_node sc t t' name); [done|].
      by eapply reconcile_part_extends.
    + destruct (reconcile_part_slot _ _ _ _ _ _ _ _ Hstep Hob)
        as (ob' & Hob' & Hst & Hlen).
      exists ob'. split; [done|]. split.
      { unfold static_of in Hst. congruence. }
      intros Hnil. apply Hne, length_zero_iff_nil.
      by rewrite <- Hlen, Hnil.
  - intros t (Hl & ob & Hob & Hm & Hne).
    pose proof (lookup_lt_Some _ _ _ Hob) as Hlt.
    unfold reconcile_part. rewrite Hl, Hob, Hm. simpl.
    destruct (clone_materials o t) as [w1|] eqn:Hclone; [|done]. simpl.
    destruct (clone_materials_spec _ _ _ _ Hob Hclone)
      as (mesh & originals & Hobjs & _ & _ & _ & _ & _ & _ & _ & Hcase).
    rewrite Hobjs, list_lookup_insert_eq by done. simpl.
    assert (as_array (material mesh) ≠ []) as Hne'.
    { destruct (cloned ob); [by destruct Hcase as [-> _]|].
      destruct Hcase as (-> & Hlen & _). intros Hnil.
      apply (f_equal length) in Hnil. rewrite length_seq in Hnil.
      apply Hne, length_zero_iff_nil. by rewrite <- Hlen. }
    destruct (as_array (material mesh)) as [|m ms]; [done|].
    assert (reconcile_material st aniso name m w1 = None) as Hfail.
    { unfold reconcile_material.
      destruct (mats w1 !! m); [|done]. by rewrite Hurl, Hmp. }
    simpl. by rewrite Hfail.
  - by apply includes_elem_of.
  - split; [done|]. by exists obj.
Qed.

Lemma reconcile_throws_without_mapping_witness :
  reconcile
    (setMappings (delete "midsole")
       (setTextures <["midsole" := Some "a.png"]> initialState))
    16%float example_scene example_world = None.
Proof.
  apply (reconcile_throws_without_mapping _ 16%float example_scene
           example_world "midsole" 1
           (example_node "midsole" true 1 (OneMaterial 0)) "a.png");
    done.
Defined.

(** ** What a session keeps *)

(** X20. A session over states with all their records runs to its end and
    keeps the store consistent: every material reference points to a
    material, a marked node shares no material with another node, and the
    overlays of a node are its recorded outline. No pass adds, removes,
    renames or retypes a node or changes a geometry, so every part name
    resolves to the same node throughout. *)
Theorem passes_keep_store_consistent sts aniso sc w :
  forallb state_ok sts = true → world_okb w = true →
  ∃ w', passes sts aniso sc w = Some w' ∧ world_ok w' ∧
    length (objs w') = length (objs w) ∧
    (∀ name, lookup_node sc (objs w') name = lookup_node sc (objs w) name) ∧
    ∀ o obj, objs w !! o = Some obj →
      ∃ obj', objs w' !! o = Some obj' ∧ obj_name obj' = obj_name obj ∧
        isMesh obj' = isMesh obj ∧ geometry obj' = geometry obj.
Proof.
  intros Hsts Hw. apply forallb_state_ok in Hsts.
  apply world_okb_sound in Hw.
  destruct (passes_total sts aniso sc w Hsts Hw) as (w' & Hrun & Hw').
  pose proof (passes_extends _ _ _ _ _ Hrun) as Hext.
  exists w'. do 2 (split; [done|]). split; [|split].
  - destruct Hext as [Hst _].
    by rewrite <- (length_fmap static_of (objs w')), Hst, length_fmap.
  - intros name. by apply extends_lookup_node.
  - intros o obj Ho.
    destruct (extends_isMesh w w' o obj Hext Ho) as (obj' & Ho' & Hst).
    exists obj'. unfold static_of in Hst. split; [done|]. by simplify_eq.
Qed.

Lemma passes_keep_store_consistent_witness :
  ∃ w', passes [initialState; onPointerDown "midsole" initialState] 16%float
          example_scene example_world = Some w' ∧ world_ok w' ∧
    length (objs w') = length (objs example_world) ∧
    (∀ name, lookup_node example_scene (objs w') name
             = lookup_node example_scene (objs example_world) name) ∧
    ∀ o obj, objs example_world !! o = Some obj →
      ∃ obj', objs w' !! o = Some obj' ∧ obj_name obj' = obj_name obj ∧
        isMesh obj' = isMesh obj ∧ geometry obj' = geometry obj.
Proof.
  apply (passes_keep_store_consistent
           [initialState; onPointerDown "midsole" initialState] 16%float
           example_scene example_world); reflexivity.
Defined.

(** ** The colour-only page *)

(** X21. The material loop of the colour-only page leaves a material
    without a colour exactly as it is; on any material, a run whose colour
    is a style in hex notation gives the same result whatever run came
    before (so the last such colour wins and repeating the run changes
    nothing), and a run without a colour after another run changes
    nothing. No run gives a material a property it lacks: roughness and
    metalness are written only where they exist. *)
Theorem ColorOnly_paint_idempotent c c2 m :
  hex_color c2 = true →
  ColorOnly.paint (Some c2) (ColorOnly.paint c m)
  = ColorOnly.paint (Some c2) m ∧
  ColorOnly.paint None (ColorOnly.paint c m) = ColorOnly.paint c m ∧
  (ColorOnly.hasColorProp m = false → ColorOnly.paint c m = m) ∧
  ColorOnly.hasColorProp (ColorOnly.paint c m) = ColorOnly.hasColorProp m ∧
  (is_Some (ColorOnly.any_roughness (ColorOnly.paint c m))
   ↔ is_Some (ColorOnly.any_roughness m)) ∧
  (is_Some (ColorOnly.any_metalness (ColorOnly.paint c m))
   ↔ is_Some (ColorOnly.any_metalness m)).
Proof.
  intros Hc2. unfold ColorOnly.paint, ColorOnly.hasColorProp.
  destruct m as [col mp nm rm mm bm am ro me nu]; simpl.
  destruct col as [col|], c as [c|], ro as [ro|], me as [me|]; simpl;
    rewrite ?(setStyle_hex c2) by done;
    repeat split; try done; by intros [? [=]].
Qed.

Lemma ColorOnly_paint_idempotent_witness :
  let m := {| ColorOnly.any_color := Some (RGB 0.5 0.5 0.5);
              ColorOnly.any_map := Some 0;
              ColorOnly.any_normalMap := Some 1;
              ColorOnly.any_roughnessMap := None;
              ColorOnly.any_metalnessMap := None;
              ColorOnly.any_bumpMap := None; ColorOnly.any_aoMap := None;
              ColorOnly.any_roughness := Some 0.5%float;
              ColorOnly.any_metalness := None;
              ColorOnly.any_needsUpdate := false |} in
  ColorOnly.paint (Some "#00ff00") (ColorOnly.paint (Some "red") m)
  = ColorOnly.paint (Some "#00ff00") m ∧
  ColorOnly.any_color (ColorOnly.paint (Some "#00ff00") m)
  = Some (Hex "#00ff00").
Proof.
  intros m.
  destruct (ColorOnly_paint_idempotent (Some "red") "#00ff00" m) as [H _];
    [reflexivity|].
  split; [exact H|reflexivity].
Defined.
